(** * lf.schema.TableBuilder: the dynamic table schema builder of Lovefield

    A shallow embedding of [lib/schema/table_builder.js].  The builder is a
    mutable object whose methods either return or throw; it is embedded as a
    record threaded through a small state-and-exception monad.  The classes
    the file generates at run time ([tableClass], [rowClass]) become records
    holding the values their closures capture. *)

From Stdlib Require Import ZArith Ascii String List Bool Lia.
From stdpp Require Import base option list strings gmap.

Local Open Scope string_scope.
Local Open Scope Z_scope.

(** ** JavaScript values *)

(** A JavaScript Number, restricted to what the builder computes with: the
    time value of a Date, which is an integral number of milliseconds or NaN. *)
Inductive number :=
  | NaN
  | Finite (z : Z).

(** The values a payload field can hold.  A Date is represented by its time
    value, an ArrayBuffer by its bytes; any other object is an opaque
    reference. *)
Inductive value :=
  | Undefined
  | Null
  | Boolean (b : bool)
  | Number (n : number)
  | Str (s : string)
  | DateObj (tv : number)
  | ArrayBuffer (bytes : list Byte.byte)
  | ObjectRef (ref : positive).

(** What a [throw] carries: an [lf.Exception] with its type and message, or
    the engine's own [TypeError] (a property read on [undefined], a call of
    something that is not a function). *)
Inductive ExceptionType := SYNTAX.

Inductive thrown :=
  | lf_Exception (type : ExceptionType) (message : string)
  | TypeError.

(** The outcome of evaluating a call. *)
Inductive completion (A : Type) :=
  | Return (a : A)
  | Throw (e : thrown).
Arguments Return {A} a.
Arguments Throw {A} e.

Definition is_SYNTAX {A} (c : completion A) : Prop :=
  ∃ msg, c = Throw (lf_Exception SYNTAX msg).

Definition returns {A} (c : completion A) : Prop := ∃ a, c = Return a.

(** [goog.isNull] *)
Definition isNull (v : value) : bool :=
  match v with Null => true | _ => false end.

(** A plain object used as a record of fields, and the property read
    [obj[key]], which is [undefined] for a missing key.  Only the fields
    of the object itself are kept, not what it inherits. *)
Abbreviation JsObject := (gmap string value).

Definition prop (obj : JsObject) (key : string) : value :=
  default Undefined (obj !! key).

(** ** Column types, orders *)

(** The members of the enumeration [lf.Type].  The builder distinguishes
    [ARRAY_BUFFER], [DATE_TIME] and [OBJECT]; the others are treated alike. *)
Inductive lf_Type :=
  | ARRAY_BUFFER | BOOLEAN | DATE_TIME | INTEGER | NUMBER | STRING | OBJECT.

Global Instance lf_Type_eq_dec : EqDecision lf_Type.
Proof. solve_decision. Defined.

(** [type == lf.Type.X] *)
Definition type_is (a b : lf_Type) : bool := bool_decide (a = b).

(** A member of the enumeration [lf.Order], a number. *)
Abbreviation lf_Order := Z.

(** ** goog.structs.Map and goog.structs.Set

    Both keep their entries in insertion order, which [getKeys] and
    [getValues] expose; setting a key that is present replaces its value in
    place, and adding an element that is present changes nothing. *)
Module Map.
Definition t (V : Type) := list (string * V).

Definition empty {V} : t V := [].

Fixpoint get {V} (m : t V) (key : string) : option V :=
  match m with
  | [] => None
  | (k, v) :: m' => if String.eqb k key then Some v else get m' key
  end.

Definition containsKey {V} (m : t V) (key : string) : bool :=
  match get m key with Some _ => true | None => false end.

Fixpoint set {V} (m : t V) (key : string) (v : V) : t V :=
  match m with
  | [] => [(key, v)]
  | (k, w) :: m' =>
      if String.eqb k key then (k, v) :: m' else (k, w) :: set m' key v
  end.

Definition getKeys {V} (m : t V) : list string := map fst m.
End Map.

Module SSet.
Definition t := list string.

Definition empty : t := [].

Definition contains (s : t) (x : string) : bool :=
  existsb (String.eqb x) s.

Definition add (s : t) (x : string) : t :=
  if contains s x then s else (s ++ [x])%list.

Definition getValues (s : t) : list string := s.
End SSet.

(** ** Schema objects built by the builder *)

(** [lf.schema.IndexedColumn], the record type of a column of an index. *)
Module IndexedColumn.
Record t := mk {
  name : string;
  order : lf_Order;
  autoIncrement : bool
}.
End IndexedColumn.

(** [new lf.schema.Index(tableName, name, isUnique, columns)] *)
Module Index.
Record t := mk {
  tableName : string;
  name : string;
  isUnique : bool;
  columns : list IndexedColumn.t
}.
End Index.

(** [new lf.schema.BaseColumn(table, name, isUnique, type)]; the reference
    back to the table is not kept. *)
Module BaseColumn.
Record t := mk {
  getName : string;
  isUnique : bool;
  getType : lf_Type
}.
End BaseColumn.

(** [new lf.schema.Constraint(primaryKey, notNullable, foreignKeys, unique)] *)
Module Constraint.
Record t := mk {
  getPrimaryKey : option Index.t;
  getNotNullable : list BaseColumn.t;
  getForeignKeys : list Index.t;
  getUnique : list Index.t
}.
End Constraint.

(** The two shapes in which the columns of a key or index are passed:
    an array of column names or an array of [lf.schema.IndexedColumn]. *)
Inductive ColumnsArg :=
  | Names (columns : list string)
  | Columns (columns : list IndexedColumn.t).

(** ** The builder object *)
Record TableBuilder := mkTableBuilder {
  name_ : string;
  columns_ : Map.t lf_Type;
  uniqueColumns_ : SSet.t;
  uniqueIndices_ : SSet.t;
  nullable_ : SSet.t;
  pkName_ : string;
  indices_ : Map.t (list IndexedColumn.t);
  persistIndex_ : bool
}.

(** A method of the builder: it reads and updates [this] and returns or
    throws.  The builder after a throw is the builder as the method left it. *)
Definition method (A : Type) : Type :=
  TableBuilder → completion A * TableBuilder.

Definition ret {A} (a : A) : method A := λ this, (Return a, this).

Definition throw {A} (e : thrown) : method A := λ this, (Throw e, this).

Definition bind {A B} (m : method A) (k : A → method B) : method B :=
  λ this,
    match m this with
    | (Return a, this') => k a this'
    | (Throw e, this') => (Throw e, this')
    end.

Definition this_ : method TableBuilder := λ this, (Return this, this).

Definition update (f : TableBuilder → TableBuilder) : method unit :=
  λ this, (Return tt, f this).

Notation "'let*' x ':=' m 'in' k" := (bind m (λ x, k))
  (at level 10, x name, k at level 200).
Notation "m >> k" := (bind m (λ _, k))
  (at level 100, right associativity).

(** [array.forEach(f, this)] where [f] may throw *)
Fixpoint forEach {A} (l : list A) (f : A → method unit) : method unit :=
  match l with
  | [] => ret tt
  | x :: l' => f x >> forEach l' f
  end.

(** Field updates *)
Definition set_columns_ (f : Map.t lf_Type → Map.t lf_Type)
    (b : TableBuilder) : TableBuilder :=
  mkTableBuilder (name_ b) (f (columns_ b)) (uniqueColumns_ b)
    (uniqueIndices_ b) (nullable_ b) (pkName_ b) (indices_ b)
    (persistIndex_ b).

Definition set_uniqueColumns_ (f : SSet.t → SSet.t)
    (b : TableBuilder) : TableBuilder :=
  mkTableBuilder (name_ b) (columns_ b) (f (uniqueColumns_ b))
    (uniqueIndices_ b) (nullable_ b) (pkName_ b) (indices_ b)
    (persistIndex_ b).

Definition set_uniqueIndices_ (f : SSet.t → SSet.t)
    (b : TableBuilder) : TableBuilder :=
  mkTableBuilder (name_ b) (columns_ b) (uniqueColumns_ b)
    (f (uniqueIndices_ b)) (nullable_ b) (pkName_ b) (indices_ b)
    (persistIndex_ b).

Definition set_nullable_ (f : SSet.t → SSet.t)
    (b : TableBuilder) : TableBuilder :=
  mkTableBuilder (name_ b) (columns_ b) (uniqueColumns_ b)
    (uniqueIndices_ b) (f (nullable_ b)) (pkName_ b) (indices_ b)
    (persistIndex_ b).

Definition set_indices_
    (f : Map.t (list IndexedColumn.t) → Map.t (list IndexedColumn.t))
    (b : TableBuilder) : TableBuilder :=
  mkTableBuilder (name_ b) (columns_ b) (uniqueColumns_ b)
    (uniqueIndices_ b) (nullable_ b) (pkName_ b) (f (indices_ b))
    (persistIndex_ b).

Definition set_persistIndex_ (v : bool) (b : TableBuilder) : TableBuilder :=
  mkTableBuilder (name_ b) (columns_ b) (uniqueColumns_ b)
    (uniqueIndices_ b) (nullable_ b) (pkName_ b) (indices_ b) v.

(** ** Names *)

Definition is_upper (c : ascii) : bool :=
  let n := nat_of_ascii c in (65 <=? n)%nat && (n <=? 90)%nat.

Definition is_lower (c : ascii) : bool :=
  let n := nat_of_ascii c in (97 <=? n)%nat && (n <=? 122)%nat.

Definition is_digit (c : ascii) : bool :=
  let n := nat_of_ascii c in (48 <=? n)%nat && (n <=? 57)%nat.

(** The class [[A-Za-z_]] *)
Definition name_start (c : ascii) : bool :=
  is_upper c || is_lower c || Ascii.eqb c "_"%char.

(** The class [[A-Za-z0-9_]] *)
Definition name_char (c : ascii) : bool :=
  name_start c || is_digit c.

Fixpoint all_chars (p : ascii → bool) (s : string) : bool :=
  match s with
  | EmptyString => true
  | String c s' => p c && all_chars p s'
  end.

(** [/^[A-Za-z_][A-Za-z0-9_]*$/.test(name)] *)
Definition naming_rule (name : string) : bool :=
  match name with
  | EmptyString => false
  | String c rest => name_start c && all_chars name_char rest
  end.

(** [c.toUpperCase()] on one character of the ASCII range *)
Definition toUpperCase (c : ascii) : ascii :=
  if is_lower c then ascii_of_nat (nat_of_ascii c - 32) else c.

(** [lf.schema.TableBuilder.toPascal_]: [name[0]] is [undefined] for the empty
    string, and calling [toUpperCase] on it throws. *)
Definition toPascal_ (name : string) : completion string :=
  match name with
  | EmptyString => Throw TypeError
  | String c rest => Return (String (toUpperCase c) rest)
  end.

(** [checkName_] *)
Definition checkName_ (name : string) : method unit :=
  let* this := this_ in
  if negb (naming_rule name) then
    throw (lf_Exception SYNTAX (name ++ " violates naming rule"))
  else if Map.containsKey (columns_ this) name
          || Map.containsKey (indices_ this) name
          || SSet.contains (uniqueIndices_ this) name then
    throw (lf_Exception SYNTAX
             (name_ this ++ "." ++ name ++ " is already defined"))
  else ret tt.

(** The constructor, [new lf.schema.TableBuilder(tableName)]: the fields
    are initialised in order, [pkName_] from [toPascal_], and the name is
    checked last. *)
Definition new_TableBuilder (tableName : string) : completion TableBuilder :=
  match toPascal_ tableName with
  | Throw e => Throw e
  | Return pascal =>
      let this :=
        mkTableBuilder tableName Map.empty SSet.empty SSet.empty SSet.empty
          ("pk" ++ pascal) Map.empty false in
      match checkName_ tableName this with
      | (Return _, this') => Return this'
      | (Throw e, _) => Throw e
      end
  end.

(** ** Rows and tables *)

(** What the generated [rowClass] closes over: the columns and indices of
    the table and the [functionMap] from normalized index names to key
    extractors. *)
Module RowClass.
Record t := mk {
  columns_ : list BaseColumn.t;
  indices_ : list Index.t;
  functionMap : gmap string (JsObject → completion value)
}.
End RowClass.

(** Modelled from the spec: the base class [lf.Row], whose file is not among
    the sources.  A row keeps the id and the payload it was constructed
    with, and [id()] and [payload()] return them; a row constructed without
    a payload takes [defaultPayload()]. *)
Module Row.
Record t := mk {
  class : RowClass.t;
  id : Z;
  payload : JsObject
}.
End Row.

(** A record of the persisted store, [{id: ..., value: ...}]. *)
Module DbRecord.
Record t := mk {
  id : Z;
  value : JsObject
}.
End DbRecord.

(** An instance of the generated [tableClass]: the fields of the base class
    [lf.schema.Table] and those the constructor adds. *)
Module Table.
Record t := mk {
  getName : string;
  cols_ : list BaseColumn.t;
  getIndices : list Index.t;
  persistentIndex : bool;
  constraint_ : Constraint.t;
  rowClass_ : RowClass.t
}.

(** [tableClass.prototype.getConstraint] *)
Definition getConstraint (this : t) : Constraint.t := constraint_ this.
End Table.

(** [value.getTime()]: only a Date has the method. *)
Definition getTime (v : value) : completion value :=
  match v with
  | DateObj tv => Return (Number tv)
  | _ => Throw TypeError
  end.

(** The clipping the Date constructor applies to a time value: at most
    8.64e15 milliseconds either side of the epoch, NaN otherwise. *)
Definition TimeClip (n : number) : number :=
  match n with
  | NaN => NaN
  | Finite z => if Z.abs z <=? 8640000000000000 then Finite z else NaN
  end.

(** [indexName.indexOf('#') != -1] *)
Fixpoint contains_hash (s : string) : bool :=
  match s with
  | EmptyString => false
  | String c s' => Ascii.eqb c "#"%char || contains_hash s'
  end.

(** [if (opt_unique)], [opt_autoInc || false] *)
Definition truthy (opt : option bool) : bool :=
  match opt with Some b => b | None => false end.

(** ** Sample members for the parameters of the builder

    The builder takes some members of other files as parameters (see
    below).  These are instances to run the builder with: a codec writing
    each byte as two lowercase hexadecimal digits, the normalized name
    [tableName.indexName], default values per type, and ascending order 1. *)

Definition hexDigit (n : N) : ascii :=
  match String.get (N.to_nat n) "0123456789abcdef" with
  | Some c => c
  | None => "0"%char
  end.


Definition hexOfByte (b : Byte.byte) : string :=
  let n := Byte.to_N b in
  String (hexDigit (n / 16)) (String (hexDigit (n mod 16)) "").

Fixpoint hexOfBytes (bytes : list Byte.byte) : string :=
  match bytes with
  | [] => ""
  | b :: rest => hexOfByte b ++ hexOfBytes rest
  end.


Definition sample_binToHex (v : value) : value :=
  match v with
  | ArrayBuffer bytes => Str (hexOfBytes bytes)
  | _ => Null
  end.


Definition sample_getNormalizedName (index : Index.t) : string :=
  Index.tableName index ++ "." ++ Index.name index.


Definition sample_ASC : lf_Order := 1.


(** ** Methods of the builder and of the generated classes

    The builder uses a few members of other files of the library, which are
    taken as parameters: the constant [lf.Order.ASC], the table
    [lf.type.DEFAULT_VALUES], the codecs [lf.Row.binToHex] and
    [lf.Row.hexToBin], the method [getNormalizedName] of [lf.schema.Index],
    and the time value the Date constructor computes from an argument that
    is not a Number. *)
Section Builder.

Set Default Proof Using "Type".
Set Proof Using Clear Unused.

Variable ASC : lf_Order.
Variable DEFAULT_VALUES : lf_Type → value.
Variable binToHex hexToBin : value → value.
Variable getNormalizedName : Index.t → string.
Variable ToDateValue : value → number.

(** [opt_order || lf.Order.ASC]: a missing order and the order 0 are falsy. *)
Definition order_or_ASC (opt_order : option lf_Order) : lf_Order :=
  match opt_order with
  | Some o => if o =? 0 then ASC else o
  | None => ASC
  end.

(** [addColumn] *)
Definition addColumn (name : string) (type : lf_Type) : method unit :=
  checkName_ name >>
  update (set_columns_ (λ m, Map.set m name type)).

(** The first step of [normalizeColumns_]: names become column objects.
    For an empty array [columns[0]] is not a string and the array is kept,
    which is the same empty array. *)
Definition toColumnObjects (columns : ColumnsArg)
    (opt_order : option lf_Order) (opt_autoInc : option bool)
    : list IndexedColumn.t :=
  match columns with
  | Names names =>
      map (λ col, IndexedColumn.mk col (order_or_ASC opt_order)
                    (truthy opt_autoInc)) names
  | Columns cols => cols
  end.

(** The check [normalizeColumns_] applies to each column, in order. *)
Definition checkColumn (checkIndexable : bool) (col : IndexedColumn.t)
    : method unit :=
  let* this := this_ in
  if negb (Map.containsKey (columns_ this) (IndexedColumn.name col)) then
    throw (lf_Exception SYNTAX
             (name_ this ++ " does not have column: "
                ++ IndexedColumn.name col))
  else if checkIndexable then
    match Map.get (columns_ this) (IndexedColumn.name col) with
    | Some type =>
        if type_is type ARRAY_BUFFER || type_is type OBJECT then
          throw (lf_Exception SYNTAX
                   (name_ this ++ " index on non-indexable column: "
                      ++ IndexedColumn.name col))
        else ret tt
    | None => ret tt
    end
  else ret tt.

(** [normalizeColumns_] *)
Definition normalizeColumns_ (columns : ColumnsArg) (checkIndexable : bool)
    (opt_order : option lf_Order) (opt_autoInc : option bool)
    : method (list IndexedColumn.t) :=
  let normalized := toColumnObjects columns opt_order opt_autoInc in
  forEach normalized (checkColumn checkIndexable) >>
  ret normalized.

(** [addPrimaryKey] *)
Definition addPrimaryKey (columns : ColumnsArg) (opt_autoInc : option bool)
    : method unit :=
  let* this := this_ in
  checkName_ (pkName_ this) >>
  let* cols := normalizeColumns_ columns true None opt_autoInc in
  forEach cols (λ col,
    update (set_uniqueColumns_ (λ s, SSet.add s (IndexedColumn.name col)))) >>
  update (set_uniqueIndices_ (λ s, SSet.add s (pkName_ this))) >>
  update (set_indices_ (λ m, Map.set m (pkName_ this) cols)).

(** [addForeignKey]: not implemented, the builder is returned as it is. *)
Definition addForeignKey (name localColumn remoteTable remoteColumn : string)
    (opt_cascade : option bool) : method unit :=
  ret tt.

(** [addUnique] *)
Definition addUnique (name : string) (columns : list string) : method unit :=
  checkName_ name >>
  let* cols := normalizeColumns_ (Names columns) true None None in
  update (set_indices_ (λ m, Map.set m name cols)) >>
  update (set_uniqueIndices_ (λ s, SSet.add s name)).

(** [addNullable] *)
Definition addNullable (columns : list string) : method unit :=
  let* cols := normalizeColumns_ (Names columns) false None None in
  forEach cols (λ col,
    update (set_nullable_ (λ s, SSet.add s (IndexedColumn.name col)))).

(** [addIndex] *)
Definition addIndex (name : string) (columns : ColumnsArg)
    (opt_order : option lf_Order) (opt_unique : option bool) : method unit :=
  checkName_ name >>
  let* cols := normalizeColumns_ columns true opt_order None in
  (if truthy opt_unique
   then update (set_uniqueIndices_ (λ s, SSet.add s name))
   else ret tt) >>
  update (set_indices_ (λ m, Map.set m name cols)).

(** [persistIndex] *)
Definition persistIndex (v : bool) : method unit :=
  update (set_persistIndex_ v).

(** A call of one of the builder's public methods, and a chain of calls
    on a new builder. *)
Inductive call :=
  | AddColumn (name : string) (type : lf_Type)
  | AddPrimaryKey (columns : ColumnsArg) (opt_autoInc : option bool)
  | AddForeignKey (name localColumn remoteTable remoteColumn : string)
      (opt_cascade : option bool)
  | AddUnique (name : string) (columns : list string)
  | AddNullable (columns : list string)
  | AddIndex (name : string) (columns : ColumnsArg)
      (opt_order : option lf_Order) (opt_unique : option bool)
  | PersistIndex (v : bool).

Definition invoke (c : call) : method unit :=
  match c with
  | AddColumn name type => addColumn name type
  | AddPrimaryKey columns opt_autoInc => addPrimaryKey columns opt_autoInc
  | AddForeignKey name lc rt rc opt_cascade =>
      addForeignKey name lc rt rc opt_cascade
  | AddUnique name columns => addUnique name columns
  | AddNullable columns => addNullable columns
  | AddIndex name columns opt_order opt_unique =>
      addIndex name columns opt_order opt_unique
  | PersistIndex v => persistIndex v
  end.

(** [new lf.schema.TableBuilder(tableName).m1(...).m2(...)...]: the builder
    the chain ends with, or the first exception thrown. *)
Definition chain (tableName : string) (calls : list call)
    : completion TableBuilder :=
  match new_TableBuilder tableName with
  | Throw e => Throw e
  | Return this =>
      match forEach calls invoke this with
      | (Return _, this') => Return this'
      | (Throw e, _) => Throw e
      end
  end.

(** ** The generated row class *)

(** The key extractor stored for an index whose first column is
    [firstColumnName]: the timestamp of the field when the builder declares
    the column as [DATE_TIME], the field itself otherwise. *)
Definition keyFunction (this : TableBuilder) (firstColumnName : string)
    : JsObject → completion value :=
  match Map.get (columns_ this) firstColumnName with
  | Some DATE_TIME => λ payload, getTime (prop payload firstColumnName)
  | _ => λ payload, Return (prop payload firstColumnName)
  end.

(** The loop filling [functionMap]; [index.columns[0].name] throws for an
    index without columns. *)
Fixpoint fill_functionMap (this : TableBuilder) (indices : list Index.t)
    (functionMap : gmap string (JsObject → completion value))
    : completion (gmap string (JsObject → completion value)) :=
  match indices with
  | [] => Return functionMap
  | index :: rest =>
      match Index.columns index with
      | [] => Throw TypeError
      | col0 :: _ =>
          let firstColumnName := IndexedColumn.name col0 in
          let key := getNormalizedName index in
          fill_functionMap this rest
            (<[key := keyFunction this firstColumnName]> functionMap)
      end
  end.

(** [generateRowClass_] *)
Definition generateRowClass_ (this : TableBuilder)
    (columns : list BaseColumn.t) (indices : list Index.t)
    : completion RowClass.t :=
  match fill_functionMap this indices ∅ with
  | Return functionMap => Return (RowClass.mk columns indices functionMap)
  | Throw e => Throw e
  end.




(** The body of the loop of [toDbPayload] for one column. *)
Definition toDbField (payload : JsObject) (col : BaseColumn.t)
    : completion value :=
  let key := BaseColumn.getName col in
  let type := BaseColumn.getType col in
  let v := prop payload key in
  if type_is type ARRAY_BUFFER then
    Return (if isNull v then v else binToHex v)
  else if type_is type DATE_TIME then
    if isNull v then Return v else getTime v
  else Return v.

Fixpoint toDbPayload_loop (payload : JsObject) (columns : list BaseColumn.t)
    (obj : JsObject) : completion JsObject :=
  match columns with
  | [] => Return obj
  | col :: rest =>
      match toDbField payload col with
      | Return v =>
          toDbPayload_loop payload rest (<[BaseColumn.getName col := v]> obj)
      | Throw e => Throw e
      end
  end.

(** [rowClass.prototype.toDbPayload] *)
Definition toDbPayload (this : Row.t) : completion JsObject :=
  toDbPayload_loop (Row.payload this) (RowClass.columns_ (Row.class this)) ∅.

(** [rowClass.prototype.keyOfIndex] *)
Definition keyOfIndex (this : Row.t) (indexName : string)
    : completion value :=
  if contains_hash indexName then Return (Number (Finite (Row.id this)))
  else
    match RowClass.functionMap (Row.class this) !! indexName with
    | Some f => f (Row.payload this)
    | None => Return Null
    end.

(** ** The generated table class *)


(** The parts of a table.  A key taken from [getKeys()] is looked up in
    the same map, and the names of the unique indices are names of indices
    (see [inv_unique_sub] below), so the lookups find a value. *)

(** The array [indices] of [generateTableClass_] *)
Definition tableIndices (that : TableBuilder) : list Index.t :=
  map (λ indexName,
         Index.mk (name_ that) indexName
           (SSet.contains (uniqueIndices_ that) indexName)
           (default [] (Map.get (indices_ that) indexName)))
      (Map.getKeys (indices_ that)).

(** The field [cols_] the constructor of [tableClass] sets *)
Definition tableColumns (that : TableBuilder) : list BaseColumn.t :=
  map (λ colName,
         BaseColumn.mk colName
           (SSet.contains (uniqueColumns_ that) colName)
           (default ARRAY_BUFFER (Map.get (columns_ that) colName)))
      (Map.getKeys (columns_ that)).

(** The constraint the constructor of [tableClass] builds *)
Definition tableConstraint (that : TableBuilder) (cols_ : list BaseColumn.t)
    : Constraint.t :=
  let pk :=
    if Map.containsKey (indices_ that) (pkName_ that) then
      Some (Index.mk (name_ that) (pkName_ that) true
              (default [] (Map.get (indices_ that) (pkName_ that))))
    else None in
  let notNullable :=
    List.filter
      (λ col, negb (SSet.contains (nullable_ that) (BaseColumn.getName col)))
      cols_ in
  let foreignKeys := [] in
  let unique :=
    map (λ indexName,
           Index.mk (name_ that) indexName true
             (default [] (Map.get (indices_ that) indexName)))
        (SSet.getValues (uniqueIndices_ that)) in
  Constraint.mk pk notNullable foreignKeys unique.

(** [generateTableClass_]: the class is the function that constructs its
    instance; [indices] is computed once, when the class is generated. *)
Definition generateTableClass_ (this : TableBuilder)
    : unit → completion Table.t :=
  let indices := tableIndices this in
  let that := this in
  λ _,
    let cols_ := tableColumns that in
    let constraint_ := tableConstraint that cols_ in
    match generateRowClass_ that cols_ indices with
    | Return rowClass_ =>
        Return (Table.mk (name_ that) cols_ indices (persistIndex_ that)
                  constraint_ rowClass_)
    | Throw e => Throw e
    end.

(** [getSchema] *)
Definition getSchema (this : TableBuilder) : completion Table.t :=
  let tableClass := generateTableClass_ this in
  tableClass tt.




(** ** What a call does, read off the methods

    For each call, the exception it throws on a builder, if any, and the
    builder it leaves when it returns. *)

Definition nameError (this : TableBuilder) (name : string) : option thrown :=
  if negb (naming_rule name) then
    Some (lf_Exception SYNTAX (name ++ " violates naming rule"))
  else if Map.containsKey (columns_ this) name
          || Map.containsKey (indices_ this) name
          || SSet.contains (uniqueIndices_ this) name then
    Some (lf_Exception SYNTAX
            (name_ this ++ "." ++ name ++ " is already defined"))
  else None.

Definition columnError (this : TableBuilder) (checkIndexable : bool)
    (col : IndexedColumn.t) : option thrown :=
  match Map.get (columns_ this) (IndexedColumn.name col) with
  | None =>
      Some (lf_Exception SYNTAX
              (name_ this ++ " does not have column: "
                 ++ IndexedColumn.name col))
  | Some type =>
      if checkIndexable
         && (type_is type ARRAY_BUFFER || type_is type OBJECT) then
        Some (lf_Exception SYNTAX
                (name_ this ++ " index on non-indexable column: "
                   ++ IndexedColumn.name col))
      else None
  end.

Fixpoint columnsError (this : TableBuilder) (checkIndexable : bool)
    (cols : list IndexedColumn.t) : option thrown :=
  match cols with
  | [] => None
  | col :: rest =>
      match columnError this checkIndexable col with
      | Some e => Some e
      | None => columnsError this checkIndexable rest
      end
  end.

Definition orError (a b : option thrown) : option thrown :=
  match a with Some e => Some e | None => b end.

Definition fails (c : call) (this : TableBuilder) : option thrown :=
  match c with
  | AddColumn name _ => nameError this name
  | AddPrimaryKey columns opt_autoInc =>
      orError (nameError this (pkName_ this))
        (columnsError this true (toColumnObjects columns None opt_autoInc))
  | AddForeignKey _ _ _ _ _ => None
  | AddUnique name columns =>
      orError (nameError this name)
        (columnsError this true (toColumnObjects (Names columns) None None))
  | AddNullable columns =>
      columnsError this false (toColumnObjects (Names columns) None None)
  | AddIndex name columns opt_order _ =>
      orError (nameError this name)
        (columnsError this true (toColumnObjects columns opt_order None))
  | PersistIndex _ => None
  end.

Definition addAll (names : list string) (s : SSet.t) : SSet.t :=
  fold_left SSet.add names s.

Definition next (c : call) (this : TableBuilder) : TableBuilder :=
  match c with
  | AddColumn name type => set_columns_ (λ m, Map.set m name type) this
  | AddPrimaryKey columns opt_autoInc =>
      let cols := toColumnObjects columns None opt_autoInc in
      set_indices_ (λ m, Map.set m (pkName_ this) cols)
        (set_uniqueIndices_ (λ s, SSet.add s (pkName_ this))
           (set_uniqueColumns_ (addAll (map IndexedColumn.name cols)) this))
  | AddForeignKey _ _ _ _ _ => this
  | AddUnique name columns =>
      let cols := toColumnObjects (Names columns) None None in
      set_uniqueIndices_ (λ s, SSet.add s name)
        (set_indices_ (λ m, Map.set m name cols) this)
  | AddNullable columns =>
      let cols := toColumnObjects (Names columns) None None in
      set_nullable_ (addAll (map IndexedColumn.name cols)) this
  | AddIndex name columns opt_order opt_unique =>
      let cols := toColumnObjects columns opt_order None in
      set_indices_ (λ m, Map.set m name cols)
        (if truthy opt_unique
         then set_uniqueIndices_ (λ s, SSet.add s name) this
         else this)
  | PersistIndex v => set_persistIndex_ v this
  end.

(** The index a call declares on a table whose primary key is named [pk]:
    its name, its columns and whether it is unique. *)
Definition declares (pk : string) (c : call) (name : string)
    (cols : list IndexedColumn.t) (unique : bool) : Prop :=
  match c with
  | AddPrimaryKey columns opt_autoInc =>
      name = pk ∧ cols = toColumnObjects columns None opt_autoInc
      ∧ unique = true
  | AddUnique n columns =>
      name = n ∧ cols = toColumnObjects (Names columns) None None
      ∧ unique = true
  | AddIndex n columns opt_order opt_unique =>
      name = n ∧ cols = toColumnObjects columns opt_order None
      ∧ unique = truthy opt_unique
  | _ => False
  end.

(** The names of the columns a key or index refers to. *)
Definition referenced (columns : ColumnsArg) : list string :=
  match columns with
  | Names names => names
  | Columns cols => map IndexedColumn.name cols
  end.

(** [name] is already defined on the builder: it is among its columns, its
    indices or its unique indices. *)
Definition defined (this : TableBuilder) (name : string) : Prop :=
  Map.containsKey (columns_ this) name = true
  ∨ Map.containsKey (indices_ this) name = true
  ∨ SSet.contains (uniqueIndices_ this) name = true.

(** A referenced column is missing, or cannot carry an index. *)
Definition missing (this : TableBuilder) (column : string) : Prop :=
  Map.containsKey (columns_ this) column = false.

Definition nonIndexable (this : TableBuilder) (column : string) : Prop :=
  Map.get (columns_ this) column = Some ARRAY_BUFFER
  ∨ Map.get (columns_ this) column = Some OBJECT.

(** A table built by a chain of calls. *)
Definition builds (tableName : string) (calls : list call) (t : Table.t)
    : Prop :=
  ∃ this, chain tableName calls = Return this ∧ getSchema this = Return t.

(** A Date object: its time value is NaN or within the range of
    [TimeClip]. *)
Definition isDate (v : value) : Prop :=
  ∃ tv, v = DateObj tv ∧ TimeClip tv = tv.

Definition isArrayBuffer (v : value) : Prop :=
  ∃ bytes, v = ArrayBuffer bytes.

(** A payload is well typed for the columns: an ArrayBuffer or null in an
    [ARRAY_BUFFER] column, a Date or null in a [DATE_TIME] column. *)
Definition wellTyped (columns : list BaseColumn.t) (payload : JsObject)
    : Prop :=
  ∀ col, col ∈ columns →
    let v := prop payload (BaseColumn.getName col) in
    (BaseColumn.getType col = ARRAY_BUFFER → v = Null ∨ isArrayBuffer v)
    ∧ (BaseColumn.getType col = DATE_TIME → v = Null ∨ isDate v).

(** The completion a possible error stands for. *)
Definition outcome (e : option thrown) : completion unit :=
  match e with Some e => Throw e | None => Return tt end.

(** The indices a chain declares, and the facts that hold of the builder a
    chain of calls ends with. *)
Definition declared (pk : string) (calls : list call) (name : string)
    (cols : list IndexedColumn.t) (unique : bool) : Prop :=
  ∃ c, c ∈ calls ∧ declares pk c name cols unique.

Record invariant (tableName pk : string) (calls : list call)
    (this : TableBuilder) : Prop := {
  inv_name : name_ this = tableName;
  inv_pkName : pkName_ this = pk;
  inv_columns : ∀ k ty,
    Map.get (columns_ this) k = Some ty ↔ AddColumn k ty ∈ calls;
  inv_columns_NoDup : NoDup (Map.getKeys (columns_ this));
  inv_indices : ∀ k cols,
    Map.get (indices_ this) k = Some cols ↔ ∃ u, declared pk calls k cols u;
  inv_unique_flag : ∀ k cols u,
    declared pk calls k cols u → SSet.contains (uniqueIndices_ this) k = u;
  inv_unique_sub : ∀ k,
    k ∈ uniqueIndices_ this → Map.containsKey (indices_ this) k = true;
  inv_nullable : ∀ k,
    k ∈ nullable_ this ↔ ∃ cols, AddNullable cols ∈ calls ∧ k ∈ cols;
  inv_uniqueColumns : ∀ k,
    k ∈ uniqueColumns_ this ↔
    ∃ columns a, AddPrimaryKey columns a ∈ calls ∧ k ∈ referenced columns;
  inv_index_columns : ∀ k cols,
    Map.get (indices_ this) k = Some cols →
    ∀ c, c ∈ cols →
      Map.containsKey (columns_ this) (IndexedColumn.name c) = true;
  inv_index_names : ∀ k,
    Map.containsKey (indices_ this) k = true → naming_rule k = true
}.

(** The table exposes a foreign key of the given name in its constraint. *)
Definition exposesForeignKey (t : Table.t) (name : string) : Prop :=
  ∃ fk, fk ∈ Constraint.getForeignKeys (Table.getConstraint t)
        ∧ Index.name fk = name.

(** ** Sample chains of calls and a sample payload *)

Definition jobCalls : list call :=
  [ AddColumn "id" INTEGER;
    AddColumn "title" STRING;
    AddColumn "posted" DATE_TIME;
    AddColumn "logo" ARRAY_BUFFER;
    AddColumn "extra" OBJECT;
    AddPrimaryKey (Names ["id"]) None;
    AddForeignKey "fkEmployer" "id" "Employer" "id" None;
    AddUnique "uqTitle" ["title"];
    AddIndex "idxPosted" (Names ["posted"; "id"]) (Some 0) None;
    AddIndex "idxTitle"
      (Columns [IndexedColumn.mk "title" 0 false]) None (Some true);
    AddNullable ["logo"; "extra"];
    PersistIndex true ].

Definition jobPayload : JsObject :=
  <["id" := Number (Finite 7)]>
    (<["title" := Str "clerk"]>
       (<["posted" := DateObj (Finite 1430000000000)]>
          (<["logo" := ArrayBuffer [Byte.x00; Byte.xff; Byte.x1a]]>
             (<["extra" := Null]> ∅)))).

(** A builder with a column that cannot carry an index. *)
Definition logoBuilder : TableBuilder :=
  mkTableBuilder "job" [("id", INTEGER); ("logo", ARRAY_BUFFER)]
    SSet.empty SSet.empty SSet.empty "pkJob" Map.empty false.

(** A chain with an index over no column. *)
Definition emptyIndexCalls : list call :=
  [ AddColumn "id" INTEGER;
    AddIndex "idxNone" (Names []) None None ].





(** ** What a chain of calls declares, in order *)

(** The columns the calls of [addColumn] add, in the order of the calls. *)
Definition columnsOf (calls : list call) : list (string * lf_Type) :=
  omap (λ c, match c with
             | AddColumn name type => Some (name, type)
             | _ => None
             end) calls.

(** The index a call declares, if any: name, columns, uniqueness. *)
Definition declaration (pk : string) (c : call)
    : option (string * list IndexedColumn.t * bool) :=
  match c with
  | AddPrimaryKey columns opt_autoInc =>
      Some (pk, toColumnObjects columns None opt_autoInc, true)
  | AddUnique name columns =>
      Some (name, toColumnObjects (Names columns) None None, true)
  | AddIndex name columns opt_order opt_unique =>
      Some (name, toColumnObjects columns opt_order None, truthy opt_unique)
  | _ => None
  end.

Definition declarations (pk : string) (calls : list call)
    : list (string * list IndexedColumn.t * bool) :=
  omap (declaration pk) calls.

(** The value the last call of [persistIndex] set, [false] without one. *)
Definition persistOf (calls : list call) : bool :=
  fold_left (λ acc c, match c with PersistIndex v => v | _ => acc end)
    calls false.

(** A call declares an index over no column at all. *)
Definition emptyIndex (c : call) : Prop :=
  match c with
  | AddPrimaryKey columns _ => referenced columns = []
  | AddUnique _ columns => columns = []
  | AddIndex _ columns _ _ => referenced columns = []
  | _ => False
  end.

(** The builder a chain ends with, field by field. *)
Record layout (pk : string) (calls : list call) (this : TableBuilder)
    : Prop := {
  lay_columns : columns_ this = columnsOf calls;
  lay_indices :
    indices_ this = map (λ d, (d.1.1, d.1.2)) (declarations pk calls);
  lay_unique :
    uniqueIndices_ this
    = map (λ d, d.1.1) (List.filter (λ d, d.2) (declarations pk calls));
  lay_persist : persistIndex_ this = persistOf calls;
  lay_column_names : ∀ k,
    Map.containsKey (columns_ this) k = true → naming_rule k = true;
  lay_disjoint : ∀ k,
    Map.containsKey (columns_ this) k = true →
    Map.containsKey (indices_ this) k = true → False;
  lay_indices_NoDup : NoDup (Map.getKeys (indices_ this))
}.

(** A value as [deserializeRow] expects it in a record: the hexadecimal
    string of a buffer or null in an [ARRAY_BUFFER] column, a time value
    in the range of [TimeClip] or null in a [DATE_TIME] column. *)
Definition wellStored (columns : list BaseColumn.t) (dbValue : JsObject)
    : Prop :=
  ∀ col, col ∈ columns →
    let v := prop dbValue (BaseColumn.getName col) in
    (BaseColumn.getType col = ARRAY_BUFFER →
     v = Null ∨ ∃ bytes, v = binToHex (ArrayBuffer bytes))
    ∧ (BaseColumn.getType col = DATE_TIME →
       v = Null ∨ ∃ n, v = Number n ∧ TimeClip n = n).

(** ** Lemmas on maps and sets *)

Lemma Map_get_set_eq {V} (m : Map.t V) k v : Map.get (Map.set m k v) k = Some v.
Proof.
  induction m as [|[k' w] m IH]; simpl.
  - by rewrite String.eqb_refl.
  - destruct (String.eqb k' k) eqn:E; simpl; rewrite E; [done | apply IH].
Qed.

Lemma Map_get_set_ne {V} (m : Map.t V) k k' v :
  k ≠ k' → Map.get (Map.set m k v) k' = Map.get m k'.
Proof.
  intros Hne. induction m as [|[k0 w] m IH]; simpl.
  - destruct (String.eqb k k') eqn:E; [|done].
    apply String.eqb_eq in E. done.
  - destruct (String.eqb k0 k) eqn:E; simpl.
    + apply String.eqb_eq in E. subst k0.
      destruct (String.eqb k k') eqn:E'; [|done].
      apply String.eqb_eq in E'. done.
    + by rewrite IH.
Qed.

Lemma Map_containsKey_get {V} (m : Map.t V) k :
  Map.containsKey m k = true ↔ ∃ v, Map.get m k = Some v.
Proof.
  unfold Map.containsKey. destruct (Map.get m k); naive_solver.
Qed.

Lemma Map_containsKey_false {V} (m : Map.t V) k :
  Map.containsKey m k = false ↔ Map.get m k = None.
Proof. unfold Map.containsKey. by destruct (Map.get m k). Qed.

Lemma Map_getKeys_get {V} (m : Map.t V) k :
  k ∈ Map.getKeys m ↔ ∃ v, Map.get m k = Some v.
Proof.
  unfold Map.getKeys. induction m as [|[k' w] m IH]; simpl.
  - split; [by intros ?%elem_of_nil | by intros [? ?]].
  - rewrite elem_of_cons, IH.
    destruct (String.eqb k' k) eqn:E.
    + apply String.eqb_eq in E. subst. split; eauto.
    + apply String.eqb_neq in E. split; [|by right].
      intros [->|?]; done.
Qed.

Lemma Map_getKeys_set {V} (m : Map.t V) k v :
  Map.getKeys (Map.set m k v) =
    if Map.containsKey m k then Map.getKeys m
    else (Map.getKeys m ++ [k])%list.
Proof.
  unfold Map.getKeys, Map.containsKey.
  induction m as [|[k' w] m IH]; simpl; [done|].
  destruct (String.eqb k' k) eqn:E; simpl; [done|].
  rewrite IH. by destruct (Map.get m k).
Qed.

Lemma Map_NoDup_set {V} (m : Map.t V) k v :
  NoDup (Map.getKeys m) → NoDup (Map.getKeys (Map.set m k v)).
Proof.
  intros Hnd. rewrite Map_getKeys_set.
  destruct (Map.containsKey m k) eqn:E; [done|].
  apply NoDup_app. split_and!; [done| |apply NoDup_singleton].
  intros x Hx ->%list_elem_of_singleton.
  apply Map_getKeys_get, Map_containsKey_get in Hx. congruence.
Qed.

Lemma SSet_contains_elem (s : SSet.t) x : SSet.contains s x = true ↔ x ∈ s.
Proof.
  unfold SSet.contains. rewrite existsb_exists. split.
  - intros (y & Hy & ->%String.eqb_eq). by apply list_elem_of_In.
  - intros Hx. exists x. split; [by apply list_elem_of_In|].
    apply String.eqb_refl.
Qed.

Lemma SSet_elem_add (s : SSet.t) x y : y ∈ SSet.add s x ↔ y ∈ s ∨ y = x.
Proof.
  unfold SSet.add. destruct (SSet.contains s x) eqn:E.
  - apply SSet_contains_elem in E. split; [by left|]. by intros [?| ->].
  - rewrite elem_of_app, list_elem_of_singleton. done.
Qed.

Lemma SSet_elem_addAll names (s : SSet.t) y :
  y ∈ addAll names s ↔ y ∈ s ∨ y ∈ names.
Proof.
  unfold addAll. revert s. induction names as [|x names IH]; intros s; simpl.
  - split; [by left|]. intros [?|?%elem_of_nil]; done.
  - rewrite IH, SSet_elem_add, elem_of_cons. naive_solver.
Qed.

(** ** The methods against their reading *)

Lemma checkName_eq name this :
  checkName_ name this = (outcome (nameError this name), this).
Proof.
  unfold checkName_, nameError, bind, this_, throw, ret.
  destruct (negb (naming_rule name)); [done|].
  by destruct (_ || _).
Qed.

Lemma checkColumn_eq chk col this :
  checkColumn chk col this = (outcome (columnError this chk col), this).
Proof.
  unfold checkColumn, columnError, bind, this_, throw, ret, Map.containsKey.
  destruct (Map.get (columns_ this) (IndexedColumn.name col)) as [ty|];
    simpl; [|done].
  destruct chk; simpl; [|done].
  by destruct (_ || _).
Qed.

Lemma forEach_checkColumn chk cols this :
  forEach cols (checkColumn chk) this
  = (outcome (columnsError this chk cols), this).
Proof.
  induction cols as [|col cols IH]; simpl; [done|].
  unfold bind. rewrite checkColumn_eq.
  destruct (columnError this chk col); simpl; [done|]. apply IH.
Qed.

Lemma normalizeColumns_eq columns chk opt_order opt_autoInc this :
  normalizeColumns_ columns chk opt_order opt_autoInc this
  = (match columnsError this chk
             (toColumnObjects columns opt_order opt_autoInc) with
     | Some e => Throw e
     | None => Return (toColumnObjects columns opt_order opt_autoInc)
     end, this).
Proof.
  unfold normalizeColumns_, bind. rewrite forEach_checkColumn.
  by destruct (columnsError _ _ _).
Qed.

Lemma forEach_uniqueColumns cols this :
  forEach cols (λ col,
    update (set_uniqueColumns_ (λ s, SSet.add s (IndexedColumn.name col))))
    this
  = (Return tt,
     set_uniqueColumns_ (addAll (map IndexedColumn.name cols)) this).
Proof.
  revert this. induction cols as [|col cols IH]; intros this; simpl.
  - by destruct this.
  - unfold bind, update at 1. rewrite IH. by destruct this.
Qed.

Lemma forEach_nullable cols this :
  forEach cols (λ col,
    update (set_nullable_ (λ s, SSet.add s (IndexedColumn.name col)))) this
  = (Return tt, set_nullable_ (addAll (map IndexedColumn.name cols)) this).
Proof.
  revert this. induction cols as [|col cols IH]; intros this; simpl.
  - by destruct this.
  - unfold bind, update at 1. rewrite IH. by destruct this.
Qed.

(** Every call either throws and leaves the builder as it was, or returns
    and leaves the builder [next] gives. *)
Lemma invoke_eq c this :
  invoke c this =
    match fails c this with
    | Some e => (Throw e, this)
    | None => (Return tt, next c this)
    end.
Proof.
  destruct c; simpl.
  - unfold addColumn, bind. rewrite checkName_eq.
    by destruct (nameError this name).
  - unfold addPrimaryKey, bind, this_. rewrite checkName_eq.
    destruct (nameError this (pkName_ this)); simpl; [done|].
    rewrite normalizeColumns_eq.
    destruct (columnsError _ _ _); [done|].
    rewrite forEach_uniqueColumns. by destruct this.
  - done.
  - unfold addUnique, bind. rewrite checkName_eq.
    destruct (nameError this name); simpl; [done|].
    rewrite normalizeColumns_eq.
    by destruct (columnsError _ _ _).
  - unfold addNullable, bind. rewrite normalizeColumns_eq.
    destruct (columnsError _ _ _); [done|].
    by rewrite forEach_nullable.
  - unfold addIndex, bind. rewrite checkName_eq.
    destruct (nameError this name); simpl; [done|].
    rewrite normalizeColumns_eq.
    destruct (columnsError _ _ _); [done|].
    by destruct (truthy opt_unique).
  - done.
Qed.

(** A call that throws leaves the builder unchanged. *)
Lemma invoke_throw_unchanged c this e this' :
  invoke c this = (Throw e, this') → this' = this.
Proof.
  rewrite invoke_eq. destruct (fails c this); congruence.
Qed.

Lemma forEach_invoke_snoc calls c this this' :
  forEach (calls ++ [c])%list invoke this = (Return tt, this') ↔
  ∃ mid, forEach calls invoke this = (Return tt, mid)
         ∧ fails c mid = None ∧ this' = next c mid.
Proof.
  revert this. induction calls as [|c0 calls IH]; intros this; simpl.
  - unfold bind, ret. rewrite invoke_eq. split.
    + destruct (fails c this) eqn:E; [done|]. intros [= <-]. eauto.
    + intros (mid & [= <-] & -> & ->). done.
  - unfold bind at 1 2. destruct (invoke c0 this) as [[[]|e] b1].
    + apply IH.
    + split; [done|]. by intros (? & ? & _).
Qed.

(** ** What a chain of calls leaves in the builder *)

Lemma toColumnObjects_names columns opt_order opt_autoInc :
  map IndexedColumn.name (toColumnObjects columns opt_order opt_autoInc)
  = referenced columns.
Proof.
  destruct columns as [names|cols]; simpl; [|done].
  induction names as [|x names IH]; simpl; [done|]. by rewrite IH.
Qed.

Lemma nameError_None this name :
  nameError this name = None ↔
  naming_rule name = true
  ∧ Map.containsKey (columns_ this) name = false
  ∧ Map.containsKey (indices_ this) name = false
  ∧ SSet.contains (uniqueIndices_ this) name = false.
Proof.
  unfold nameError. destruct (naming_rule name); simpl; [|naive_solver].
  destruct (Map.containsKey (columns_ this) name),
    (Map.containsKey (indices_ this) name),
    (SSet.contains (uniqueIndices_ this) name); simpl; naive_solver.
Qed.

Lemma orError_None a b : orError a b = None ↔ a = None ∧ b = None.
Proof. destruct a; simpl; naive_solver. Qed.

Lemma columnsError_None this chk cols :
  columnsError this chk cols = None ↔
  ∀ c, c ∈ cols → columnError this chk c = None.
Proof.
  induction cols as [|col cols IH]; simpl.
  - split; [|done]. by intros _ c ?%elem_of_nil.
  - destruct (columnError this chk col) eqn:E.
    + split; [done|]. intros H. rewrite <- E. apply H. by left.
    + rewrite IH. split.
      * intros H c [->|?]%elem_of_cons; auto.
      * intros H c Hc. apply H. by right.
Qed.

Lemma columnError_None this chk c :
  columnError this chk c = None ↔
  ∃ ty, Map.get (columns_ this) (IndexedColumn.name c) = Some ty
        ∧ (chk = true → ty ≠ ARRAY_BUFFER ∧ ty ≠ OBJECT).
Proof.
  unfold columnError.
  destruct (Map.get (columns_ this) (IndexedColumn.name c)) as [ty|].
  - destruct chk; simpl.
    + destruct ty; simpl; split; try done;
        try (intros _; eexists; split; [done|]; by intros _);
        intros (ty' & [= <-] & H); destruct (H eq_refl); done.
    + split; [|done]. intros _. eexists. split; [done|]. done.
  - split; [done|]. by intros (? & ? & _).
Qed.

Lemma columnsError_defined this chk cols c :
  columnsError this chk cols = None → c ∈ cols →
  Map.containsKey (columns_ this) (IndexedColumn.name c) = true.
Proof.
  intros H Hc. apply Map_containsKey_get.
  pose proof (proj1 (columnsError_None _ _ _) H c Hc) as He.
  apply columnError_None in He as (ty & Hty & _). eauto.
Qed.

Lemma declared_snoc pk calls c name cols u :
  declared pk (calls ++ [c])%list name cols u ↔
  declared pk calls name cols u ∨ declares pk c name cols u.
Proof.
  unfold declared. split.
  - intros (c' & [?| ->%list_elem_of_singleton]%elem_of_app & Hd); eauto.
  - intros [(c' & ? & ?)|?].
    + exists c'. split; [|done]. apply elem_of_app. by left.
    + exists c. split; [|done]. apply elem_of_app. right.
      by apply list_elem_of_singleton.
Qed.

Lemma elem_of_snoc {A} (l : list A) (x y : A) :
  y ∈ (l ++ [x])%list ↔ y ∈ l ∨ y = x.
Proof. by rewrite elem_of_app, list_elem_of_singleton. Qed.

Lemma Map_containsKey_set {V} (m : Map.t V) k v k' :
  Map.containsKey (Map.set m k v) k' = true ↔
  Map.containsKey m k' = true ∨ k' = k.
Proof.
  rewrite !Map_containsKey_get. destruct (decide (k = k')) as [->|Hne].
  - rewrite Map_get_set_eq. naive_solver.
  - rewrite Map_get_set_ne by done. naive_solver.
Qed.

Lemma SSet_contains_add (s : SSet.t) x y :
  SSet.contains (SSet.add s x) y =
    SSet.contains s y || bool_decide (y = x).
Proof.
  apply eq_true_iff_eq. rewrite orb_true_iff, bool_decide_eq_true.
  rewrite !SSet_contains_elem. apply SSet_elem_add.
Qed.


(** A call that declares an index, on a builder where the name is free:
    the invariants on indices after it. *)
Lemma invariant_declare tableName pk calls this c name cols u :
  invariant tableName pk calls this →
  (∀ k cols' u', declares pk c k cols' u' ↔
                 k = name ∧ cols' = cols ∧ u' = u) →
  naming_rule name = true →
  Map.containsKey (indices_ this) name = false →
  SSet.contains (uniqueIndices_ this) name = false →
  (∀ x, x ∈ cols →
        Map.containsKey (columns_ this) (IndexedColumn.name x) = true) →
  ∀ this',
    name_ this' = name_ this → pkName_ this' = pkName_ this →
    columns_ this' = columns_ this →
    indices_ this' = Map.set (indices_ this) name cols →
    uniqueIndices_ this' =
      (if u then SSet.add (uniqueIndices_ this) name
       else uniqueIndices_ this) →
    (∀ k, k ∈ nullable_ this' ↔
          ∃ cols, AddNullable cols ∈ (calls ++ [c])%list ∧ k ∈ cols) →
    (∀ k, k ∈ uniqueColumns_ this' ↔
          ∃ columns a, AddPrimaryKey columns a ∈ (calls ++ [c])%list
                       ∧ k ∈ referenced columns) →
    (∀ k ty, AddColumn k ty ∈ (calls ++ [c])%list ↔ AddColumn k ty ∈ calls) →
    invariant tableName pk (calls ++ [c])%list this'.
Proof.
  intros [] Hdecl Hrule Hfree Hfree' Hcols this' Hn Hpk Hc Hi Hu Hnull Huc
    Hac.
  constructor.
  - congruence.
  - congruence.
  - intros k ty. rewrite Hc, Hac. auto.
  - by rewrite Hc.
  - intros k cols'. rewrite Hi.
    setoid_rewrite declared_snoc. setoid_rewrite Hdecl.
    destruct (decide (name = k)) as [->|Hne].
    + rewrite Map_get_set_eq. split.
      * intros [= <-]. exists u. by right.
      * intros (u' & [Hd|(_ & -> & _)]); [|done].
        assert (Map.get (indices_ this) k = Some cols') as Hg
          by (apply inv_indices0; eauto).
        apply Map_containsKey_false in Hfree. congruence.
    + rewrite Map_get_set_ne by done. rewrite inv_indices0.
      split; intros (u' & H); exists u'; [by left|].
      destruct H as [?|(-> & _)]; done.
  - intros k cols' u'. rewrite declared_snoc, Hdecl, Hu.
    intros [Hd|(-> & -> & ->)].
    + assert (k ≠ name) as Hne.
      { intros ->. apply Map_containsKey_false in Hfree.
        assert (Map.get (indices_ this) name = Some cols') as Hg
          by (apply inv_indices0; eauto).
        congruence. }
      destruct u; [|eauto].
      rewrite SSet_contains_add, (inv_unique_flag0 _ _ _ Hd).
      rewrite bool_decide_eq_false_2 by done. apply orb_false_r.
    + destruct u; [|done].
      rewrite SSet_contains_add, bool_decide_eq_true_2 by done.
      apply orb_true_r.
  - intros k. rewrite Hu, Hi, Map_containsKey_set.
    destruct u; [rewrite SSet_elem_add|]; naive_solver.
  - done.
  - done.
  - intros k cols'. rewrite Hi, Hc.
    destruct (decide (name = k)) as [->|Hne].
    + rewrite Map_get_set_eq. intros [= <-]. done.
    + rewrite Map_get_set_ne by done. apply inv_index_columns0.
  - intros k. rewrite Hi, Map_containsKey_set. intros [?| ->]; auto.
Qed.

(** A call that declares no index and leaves the indices alone. *)
Lemma invariant_other tableName pk calls this c :
  invariant tableName pk calls this →
  (∀ k cols u, ¬ declares pk c k cols u) →
  ∀ this',
    name_ this' = name_ this → pkName_ this' = pkName_ this →
    indices_ this' = indices_ this →
    uniqueIndices_ this' = uniqueIndices_ this →
    uniqueColumns_ this' = uniqueColumns_ this →
    (∀ columns a, c ≠ AddPrimaryKey columns a) →
    (∀ k ty, Map.get (columns_ this') k = Some ty ↔
             AddColumn k ty ∈ (calls ++ [c])%list) →
    NoDup (Map.getKeys (columns_ this')) →
    (∀ k, Map.containsKey (columns_ this) k = true →
          Map.containsKey (columns_ this') k = true) →
    (∀ k, k ∈ nullable_ this' ↔
          ∃ cols, AddNullable cols ∈ (calls ++ [c])%list ∧ k ∈ cols) →
    invariant tableName pk (calls ++ [c])%list this'.
Proof.
  intros [] Hdecl this' Hn Hpk Hi Hu Huc Hnotpk Hcols Hnd Hmono Hnull.
  constructor.
  - congruence.
  - congruence.
  - done.
  - done.
  - intros k cols. rewrite Hi, inv_indices0.
    split; intros (u & Hd); exists u.
    + apply declared_snoc. by left.
    + apply declared_snoc in Hd as [?|Hd]; [done|]. by apply Hdecl in Hd.
  - intros k cols u [Hd|Hd]%declared_snoc; [|by apply Hdecl in Hd].
    rewrite Hu. eauto.
  - intros k. rewrite Hu, Hi. auto.
  - done.
  - intros k. rewrite Huc, inv_uniqueColumns0.
    split; intros (columns & a & Hin & Hk); exists columns, a;
      (split; [|done]).
    + apply elem_of_snoc. by left.
    + apply elem_of_snoc in Hin as [?|Heq]; [done|].
      subst c. by destruct (Hnotpk columns a).
  - intros k cols. rewrite Hi. intros Hg x Hx. eauto.
  - intros k. rewrite Hi. auto.
Qed.

Lemma invariant_step tableName pk calls this c :
  invariant tableName pk calls this →
  fails c this = None →
  invariant tableName pk (calls ++ [c])%list (next c this).
Proof.
  intros Hinv Hf. pose proof Hinv as [].
  destruct c; simpl in Hf.
  - (* addColumn *)
    apply nameError_None in Hf as (_ & Hfree & _).
    apply (invariant_other _ _ _ _ _ Hinv); simpl; try done;
      try (by intros ??? []).
    + intros k ty. rewrite elem_of_snoc.
      destruct (decide (name = k)) as [->|Hne].
      * rewrite Map_get_set_eq. split; [intros [= <-]; by right|].
        intros [Hin|[= <-]]; [|done].
        apply inv_columns0 in Hin. apply Map_containsKey_false in Hfree.
        congruence.
      * rewrite Map_get_set_ne by done. rewrite inv_columns0.
        split; [by left|]. intros [?|[= ? ?]]; done.
    + by apply Map_NoDup_set.
    + intros k Hk. apply Map_containsKey_set. by left.
    + intros k. rewrite inv_nullable0. setoid_rewrite elem_of_snoc.
      naive_solver.
  - (* addPrimaryKey *)
    apply orError_None in Hf as [Hname Hcols].
    apply nameError_None in Hname as (Hrule & _ & Hfree & Hfree').
    apply (invariant_declare _ _ _ _ _ (pkName_ this)
             (toColumnObjects columns None opt_autoInc) true Hinv);
      simpl; try done.
    + intros k cols' u'. rewrite inv_pkName0. naive_solver.
    + intros x Hx. by eapply columnsError_defined.
    + intros k. rewrite inv_nullable0. setoid_rewrite elem_of_snoc.
      naive_solver.
    + intros k. rewrite SSet_elem_addAll, toColumnObjects_names.
      rewrite inv_uniqueColumns0. setoid_rewrite elem_of_snoc.
      naive_solver.
    + intros k ty. rewrite elem_of_snoc. naive_solver.
  - (* addForeignKey *)
    apply (invariant_other _ _ _ _ _ Hinv); simpl; try done;
      try (by intros ??? []).
    + intros k ty. rewrite inv_columns0, elem_of_snoc. naive_solver.
    + intros k. rewrite inv_nullable0. setoid_rewrite elem_of_snoc.
      naive_solver.
  - (* addUnique *)
    apply orError_None in Hf as [Hname Hcols].
    apply nameError_None in Hname as (Hrule & _ & Hfree & Hfree').
    apply (invariant_declare _ _ _ _ _ name
             (toColumnObjects (Names columns) None None) true Hinv);
      simpl; try done.
    + intros x Hx. by eapply columnsError_defined.
    + intros k. rewrite inv_nullable0. setoid_rewrite elem_of_snoc.
      naive_solver.
    + intros k. rewrite inv_uniqueColumns0. setoid_rewrite elem_of_snoc.
      naive_solver.
    + intros k ty. rewrite elem_of_snoc. naive_solver.
  - (* addNullable *)
    apply (invariant_other _ _ _ _ _ Hinv); simpl; try done;
      try (by intros ??? []).
    + intros k ty. rewrite inv_columns0, elem_of_snoc. naive_solver.
    + intros k.
      pose proof (toColumnObjects_names (Names columns) None None) as Hn.
      simpl in Hn. rewrite SSet_elem_addAll, Hn.
      rewrite inv_nullable0. setoid_rewrite elem_of_snoc.
      naive_solver.
  - (* addIndex *)
    apply orError_None in Hf as [Hname Hcols].
    apply nameError_None in Hname as (Hrule & _ & Hfree & Hfree').
    apply (invariant_declare _ _ _ _ _ name
             (toColumnObjects columns opt_order None) (truthy opt_unique)
             Hinv);
      simpl; try done; try (by destruct (truthy opt_unique)).
    + intros x Hx. by eapply columnsError_defined.
    + intros k.
      assert (nullable_ (if truthy opt_unique
                         then set_uniqueIndices_
                                (λ s, SSet.add s name) this
                         else this) = nullable_ this) as ->
        by (by destruct (truthy opt_unique)).
      rewrite inv_nullable0. setoid_rewrite elem_of_snoc. naive_solver.
    + intros k.
      assert (uniqueColumns_ (if truthy opt_unique
                              then set_uniqueIndices_
                                     (λ s, SSet.add s name) this
                              else this) = uniqueColumns_ this) as ->
        by (by destruct (truthy opt_unique)).
      rewrite inv_uniqueColumns0. setoid_rewrite elem_of_snoc.
      naive_solver.
    + intros k ty. rewrite elem_of_snoc. naive_solver.
  - (* persistIndex *)
    apply (invariant_other _ _ _ _ _ Hinv); simpl; try done;
      try (by intros ??? []).
    + intros k ty. rewrite inv_columns0, elem_of_snoc. naive_solver.
    + intros k. rewrite inv_nullable0. setoid_rewrite elem_of_snoc.
      naive_solver.
Qed.

Lemma new_TableBuilder_Return tableName this :
  new_TableBuilder tableName = Return this →
  ∃ pascal,
    toPascal_ tableName = Return pascal
    ∧ naming_rule tableName = true
    ∧ this = mkTableBuilder tableName Map.empty SSet.empty SSet.empty
               SSet.empty ("pk" ++ pascal) Map.empty false.
Proof.
  unfold new_TableBuilder.
  destruct (toPascal_ tableName) as [pascal|]; [|done].
  rewrite checkName_eq. unfold nameError; simpl.
  destruct (naming_rule tableName); simpl; [|done].
  intros [= <-]. eauto.
Qed.

Lemma invariant_new tableName pk :
  invariant tableName pk []
    (mkTableBuilder tableName Map.empty SSet.empty SSet.empty SSet.empty
       pk Map.empty false).
Proof.
  constructor; simpl; try done.
  - intros k ty. split; [done|]. by intros ?%elem_of_nil.
  - apply NoDup_nil_2.
  - intros k cols. split; [done|].
    by intros (u & c & ?%elem_of_nil & _).
  - by intros k cols u (c & ?%elem_of_nil & _).
  - by intros k ?%elem_of_nil.
  - intros k. split; [by intros ?%elem_of_nil|].
    by intros (cols & ?%elem_of_nil & _).
  - intros k. split; [by intros ?%elem_of_nil|].
    by intros (cols & a & ?%elem_of_nil & _).
Qed.

Lemma forEach_invoke_invariant tableName pk this0 calls this :
  invariant tableName pk [] this0 →
  forEach calls invoke this0 = (Return tt, this) →
  invariant tableName pk calls this.
Proof.
  intros H0. revert this.
  induction calls as [|c calls IH] using rev_ind; intros this.
  - simpl. by intros [= <-].
  - intros (mid & Hmid & Hf & ->)%forEach_invoke_snoc.
    apply invariant_step; auto.
Qed.

(** The builder at the end of a chain satisfies the invariant. *)
Lemma chain_invariant tableName calls this :
  chain tableName calls = Return this →
  ∃ pascal,
    toPascal_ tableName = Return pascal
    ∧ naming_rule tableName = true
    ∧ invariant tableName ("pk" ++ pascal) calls this.
Proof.
  unfold chain.
  destruct (new_TableBuilder tableName) as [this0|] eqn:Hnew; [|done].
  apply new_TableBuilder_Return in Hnew as (pascal & Hp & Hrule & ->).
  destruct (forEach calls invoke _) as [[[]|e] this'] eqn:Hrun; [|done].
  intros [= <-]. exists pascal. split_and!; [done..|].
  eapply forEach_invoke_invariant; [|done]. apply invariant_new.
Qed.

(** ** The table of a builder *)

Lemma getSchema_Return this t :
  getSchema this = Return t →
  ∃ functionMap,
    fill_functionMap this (tableIndices this) ∅ = Return functionMap
    ∧ t = Table.mk (name_ this) (tableColumns this) (tableIndices this)
            (persistIndex_ this)
            (tableConstraint this (tableColumns this))
            (RowClass.mk (tableColumns this) (tableIndices this)
               functionMap).
Proof.
  unfold getSchema, generateTableClass_, generateRowClass_.
  destruct (fill_functionMap _ _ _) as [fm|]; [|done].
  intros [= <-]. eauto.
Qed.

Lemma elem_of_tableColumns this col :
  col ∈ tableColumns this ↔
  Map.get (columns_ this) (BaseColumn.getName col)
    = Some (BaseColumn.getType col)
  ∧ BaseColumn.isUnique col
    = SSet.contains (uniqueColumns_ this) (BaseColumn.getName col).
Proof.
  unfold tableColumns. rewrite list_elem_of_fmap. split.
  - intros (k & -> & Hk). simpl.
    apply Map_getKeys_get in Hk as [ty Hty]. by rewrite Hty.
  - intros [Hty Hu]. exists (BaseColumn.getName col). split.
    + destruct col; simpl in *. rewrite Hty. simpl. by rewrite Hu.
    + apply Map_getKeys_get. eauto.
Qed.

Lemma tableColumns_names this :
  map BaseColumn.getName (tableColumns this) = Map.getKeys (columns_ this).
Proof.
  unfold tableColumns. rewrite map_map. simpl. apply map_id.
Qed.

Lemma elem_of_tableIndices this index :
  index ∈ tableIndices this ↔
  Index.tableName index = name_ this
  ∧ Map.get (indices_ this) (Index.name index) = Some (Index.columns index)
  ∧ Index.isUnique index
    = SSet.contains (uniqueIndices_ this) (Index.name index).
Proof.
  unfold tableIndices. rewrite list_elem_of_fmap. split.
  - intros (k & -> & Hk). simpl.
    apply Map_getKeys_get in Hk as [cols Hcols]. by rewrite Hcols.
  - intros (Hn & Hc & Hu). exists (Index.name index). split.
    + destruct index; simpl in *. rewrite Hc. simpl. by rewrite Hn, Hu.
    + apply Map_getKeys_get. eauto.
Qed.

Lemma tableColumns_NoDup tableName pk calls this :
  invariant tableName pk calls this →
  NoDup (map BaseColumn.getName (tableColumns this)).
Proof. intros []. by rewrite tableColumns_names. Qed.


(** An object filled field by field from a list without repeated keys. *)
Lemma fold_insert_lookup {A} (key : A → string) (f : A → value)
    (l : list A) (init : JsObject) :
  NoDup (map key l) →
  (∀ x, x ∈ l →
     fold_left (λ obj x, <[key x := f x]> obj) l init !! key x = Some (f x))
  ∧ (∀ k, k ∉ map key l →
     fold_left (λ obj x, <[key x := f x]> obj) l init !! k = init !! k).
Proof.
  revert init. induction l as [|a l IH]; intros init Hnd; simpl.
  - split; [by intros x ?%elem_of_nil|done].
  - apply NoDup_cons in Hnd as [Ha Hnd].
    destruct (IH (<[key a := f a]> init) Hnd) as [IH1 IH2]. split.
    + intros x [->|Hx]%elem_of_cons; [|by apply IH1].
      rewrite IH2 by done. apply lookup_insert_eq.
    + intros k Hk. apply not_elem_of_cons in Hk as [Hne Hk].
      rewrite IH2 by done. by apply lookup_insert_ne.
Qed.

(** ** Constraint metadata *)

(** [addForeignKey] returns and leaves the builder as it was, and the
    constraint of every table a chain of calls builds, with or without
    calls of [addForeignKey], has an empty list of foreign keys. *)
Lemma foreignKeys_empty tableName calls t :
  builds tableName calls t →
  Constraint.getForeignKeys (Table.getConstraint t) = []
  ∧ ∀ name localColumn remoteTable remoteColumn opt_cascade this,
      addForeignKey name localColumn remoteTable remoteColumn opt_cascade
        this = (Return tt, this).
Proof.
  intros (this & _ & (fm & _ & ->)%getSchema_Return). split; done.
Qed.





(** ** Validation of names and columns *)

Lemma nameError_Some this name :
  nameError this name ≠ None ↔ naming_rule name = false ∨ defined this name.
Proof.
  rewrite nameError_None. unfold defined.
  destruct (naming_rule name), (Map.containsKey (columns_ this) name),
    (Map.containsKey (indices_ this) name),
    (SSet.contains (uniqueIndices_ this) name); naive_solver.
Qed.

Lemma columnError_Some this chk c :
  columnError this chk c ≠ None ↔
  missing this (IndexedColumn.name c)
  ∨ (chk = true ∧ nonIndexable this (IndexedColumn.name c)).
Proof.
  unfold columnError, missing, nonIndexable, Map.containsKey.
  destruct (Map.get (columns_ this) (IndexedColumn.name c)) as [ty|];
    [|naive_solver].
  destruct chk; simpl; [|naive_solver].
  destruct ty; simpl; naive_solver.
Qed.

Lemma columnsError_Some this chk cols :
  columnsError this chk cols ≠ None ↔
  ∃ c, c ∈ cols ∧ columnError this chk c ≠ None.
Proof.
  induction cols as [|col cols IH]; simpl.
  - split; [done|]. by intros (c & ?%elem_of_nil & _).
  - destruct (columnError this chk col) eqn:E.
    + split; [|done]. intros _. exists col. split; [by left|]. by rewrite E.
    + rewrite IH. split.
      * intros (c & Hc & He). exists c. split; [by right|done].
      * intros (c & [->|Hc]%elem_of_cons & He); [done|eauto].
Qed.

(** The columns a call complains about, by name. *)
Lemma columnsError_referenced this chk columns opt_order opt_autoInc :
  columnsError this chk (toColumnObjects columns opt_order opt_autoInc)
    ≠ None ↔
  ∃ c, c ∈ referenced columns
       ∧ (missing this c ∨ (chk = true ∧ nonIndexable this c)).
Proof.
  rewrite columnsError_Some, <- (toColumnObjects_names columns opt_order
                                   opt_autoInc).
  setoid_rewrite columnError_Some. setoid_rewrite list_elem_of_fmap.
  naive_solver.
Qed.

Lemma nameError_SYNTAX this name e :
  nameError this name = Some e → ∃ msg, e = lf_Exception SYNTAX msg.
Proof.
  unfold nameError. destruct (negb _); [intros [= <-]; eauto|].
  destruct (_ || _); [intros [= <-]; eauto|done].
Qed.

Lemma columnsError_SYNTAX this chk cols e :
  columnsError this chk cols = Some e → ∃ msg, e = lf_Exception SYNTAX msg.
Proof.
  induction cols as [|col cols IH]; simpl; [done|].
  destruct (columnError this chk col) eqn:E; [|done].
  intros [= <-]. unfold columnError in E.
  destruct (Map.get _ _); [|injection E as <-; eauto].
  destruct (_ && _); [injection E as <-; eauto|done].
Qed.

Lemma fails_SYNTAX c this e :
  fails c this = Some e → ∃ msg, e = lf_Exception SYNTAX msg.
Proof.
  destruct c; simpl; try done;
    try apply nameError_SYNTAX; try apply columnsError_SYNTAX;
    (destruct (nameError this _) eqn:E; simpl;
     [intros [= <-]; by eapply nameError_SYNTAX
     |apply columnsError_SYNTAX]).
Qed.

(** A call throws a SYNTAX exception exactly when [fails] finds an error,
    and returns otherwise. *)
Lemma invoke_SYNTAX c this :
  is_SYNTAX (invoke c this).1 ↔ fails c this ≠ None.
Proof.
  rewrite invoke_eq. destruct (fails c this) eqn:E; simpl.
  - destruct (fails_SYNTAX _ _ _ E) as [msg ->].
    split; [done|]. intros _. by exists msg.
  - split; [by intros [msg ?]|done].
Qed.

Lemma invoke_Return c this :
  fails c this = None → (invoke c this).1 = Return tt.
Proof. rewrite invoke_eq. by intros ->. Qed.

Lemma addColumn_SYNTAX this name type :
  is_SYNTAX (addColumn name type this).1 ↔
  naming_rule name = false ∨ defined this name.
Proof.
  unfold addColumn, bind. rewrite checkName_eq, <- nameError_Some.
  destruct (nameError this name) as [e|] eqn:E; simpl.
  - destruct (nameError_SYNTAX _ _ _ E) as [msg ->].
    split; [done|]. intros _. by exists msg.
  - split; [by intros [msg ?]|done].
Qed.

Lemma addUnique_SYNTAX this name columns :
  is_SYNTAX (addUnique name columns this).1 ↔
  (naming_rule name = false ∨ defined this name)
  ∨ ∃ c, c ∈ columns ∧ (missing this c ∨ nonIndexable this c).
Proof.
  change (addUnique name columns) with (invoke (AddUnique name columns)).
  rewrite invoke_SYNTAX. unfold fails.
  rewrite <- nameError_Some.
  pose proof (columnsError_referenced this true (Names columns) None None)
    as Hc. simpl referenced in Hc.
  destruct (nameError this name); simpl; [naive_solver|].
  rewrite Hc. naive_solver.
Qed.

Lemma addIndex_SYNTAX this name columns opt_order opt_unique :
  is_SYNTAX (addIndex name columns opt_order opt_unique this).1 ↔
  (naming_rule name = false ∨ defined this name)
  ∨ ∃ c, c ∈ referenced columns ∧ (missing this c ∨ nonIndexable this c).
Proof.
  change (addIndex name columns opt_order opt_unique)
    with (invoke (AddIndex name columns opt_order opt_unique)).
  rewrite invoke_SYNTAX. unfold fails.
  rewrite <- nameError_Some.
  destruct (nameError this name); simpl; [naive_solver|].
  rewrite columnsError_referenced. naive_solver.
Qed.

Lemma addPrimaryKey_SYNTAX this columns opt_autoInc :
  is_SYNTAX (addPrimaryKey columns opt_autoInc this).1 ↔
  (naming_rule (pkName_ this) = false ∨ defined this (pkName_ this))
  ∨ ∃ c, c ∈ referenced columns ∧ (missing this c ∨ nonIndexable this c).
Proof.
  change (addPrimaryKey columns opt_autoInc)
    with (invoke (AddPrimaryKey columns opt_autoInc)).
  rewrite invoke_SYNTAX. unfold fails.
  rewrite <- nameError_Some.
  destruct (nameError this (pkName_ this)); simpl; [naive_solver|].
  rewrite columnsError_referenced. naive_solver.
Qed.

Lemma addNullable_SYNTAX this columns :
  is_SYNTAX (addNullable columns this).1 ↔
  ∃ c, c ∈ columns ∧ missing this c.
Proof.
  change (addNullable columns) with (invoke (AddNullable columns)).
  pose proof (columnsError_referenced this false (Names columns) None None)
    as Hc. simpl referenced in Hc.
  rewrite invoke_SYNTAX. simpl fails. rewrite Hc. naive_solver.
Qed.

Lemma new_TableBuilder_SYNTAX tableName :
  tableName ≠ "" →
  is_SYNTAX (new_TableBuilder tableName) ↔ naming_rule tableName = false.
Proof.
  intros Hne. unfold new_TableBuilder.
  destruct tableName as [|c rest]; [done|]. simpl toPascal_.
  cbv beta iota. rewrite checkName_eq. unfold nameError.
  destruct (naming_rule (String c rest)); simpl.
  - split; [by intros [msg ?]|done].
  - split; [done|]. intros _. by eexists.
Qed.

(** C8, as amended: [addColumn] throws a SYNTAX exception exactly when the
    name breaks the naming rule or is already defined among the columns,
    indices or unique indices; [addUnique], [addIndex] and [addPrimaryKey]
    (for the primary-key name) throw one exactly when the name does so or
    a referenced column is missing or not indexable; the constructor, for
    a table name that is not empty, throws one exactly when the name
    breaks the naming rule. *)
Theorem name_validation this :
  (∀ name type,
     is_SYNTAX (addColumn name type this).1 ↔
     naming_rule name = false ∨ defined this name)
  ∧ (∀ name columns,
       is_SYNTAX (addUnique name columns this).1 ↔
       (naming_rule name = false ∨ defined this name)
       ∨ ∃ c, c ∈ columns ∧ (missing this c ∨ nonIndexable this c))
  ∧ (∀ name columns opt_order opt_unique,
       is_SYNTAX (addIndex name columns opt_order opt_unique this).1 ↔
       (naming_rule name = false ∨ defined this name)
       ∨ ∃ c, c ∈ referenced columns
              ∧ (missing this c ∨ nonIndexable this c))
  ∧ (∀ columns opt_autoInc,
       is_SYNTAX (addPrimaryKey columns opt_autoInc this).1 ↔
       (naming_rule (pkName_ this) = false ∨ defined this (pkName_ this))
       ∨ ∃ c, c ∈ referenced columns
              ∧ (missing this c ∨ nonIndexable this c))
  ∧ (∀ tableName,
       tableName ≠ "" →
       is_SYNTAX (new_TableBuilder tableName) ↔
       naming_rule tableName = false).
Proof.
  split_and!.
  - apply addColumn_SYNTAX.
  - apply addUnique_SYNTAX.
  - apply addIndex_SYNTAX.
  - apply addPrimaryKey_SYNTAX.
  - apply new_TableBuilder_SYNTAX.
Qed.

(** C9: [addPrimaryKey], [addUnique] and [addIndex] throw a SYNTAX
    exception whenever a referenced column is not defined on the builder
    or has type [ARRAY_BUFFER] or [OBJECT]; [addNullable] throws one
    exactly when a referenced column is not defined, and returns
    otherwise, whatever the types of the columns. *)
Theorem column_validation this :
  (∀ columns,
     (∃ c, c ∈ referenced columns
           ∧ (missing this c ∨ nonIndexable this c)) →
     (∀ opt_autoInc, is_SYNTAX (addPrimaryKey columns opt_autoInc this).1)
     ∧ (∀ name opt_order opt_unique,
          is_SYNTAX (addIndex name columns opt_order opt_unique this).1))
  ∧ (∀ columns,
       (∃ c, c ∈ columns ∧ (missing this c ∨ nonIndexable this c)) →
       ∀ name, is_SYNTAX (addUnique name columns this).1)
  ∧ (∀ columns,
       (is_SYNTAX (addNullable columns this).1 ↔
        ∃ c, c ∈ columns ∧ missing this c)
       ∧ (¬ (∃ c, c ∈ columns ∧ missing this c) →
          (addNullable columns this).1 = Return tt)).
Proof.
  split_and!.
  - intros columns Hbad. split.
    + intros a. apply addPrimaryKey_SYNTAX. by right.
    + intros name o u. apply addIndex_SYNTAX. by right.
  - intros columns Hbad name. apply addUnique_SYNTAX. by right.
  - intros columns. split; [apply addNullable_SYNTAX|].
    intros Hok.
    change (addNullable columns) with (invoke (AddNullable columns)).
    apply invoke_Return.
    destruct (fails (AddNullable columns) this) eqn:E; [|done].
    exfalso. apply Hok, addNullable_SYNTAX.
    change (addNullable columns) with (invoke (AddNullable columns)).
    apply invoke_SYNTAX. by rewrite E.
Qed.

(** ** Index keys *)

Lemma fill_functionMap_other this indices fm0 fm key :
  fill_functionMap this indices fm0 = Return fm →
  (∀ j, j ∈ indices → getNormalizedName j ≠ key) →
  fm !! key = fm0 !! key.
Proof.
  revert fm0. induction indices as [|j indices IH]; intros fm0; simpl.
  - by intros [= <-].
  - destruct (Index.columns j) as [|col0 rest]; [done|].
    intros Hfill Hne. rewrite (IH _ Hfill).
    + apply lookup_insert_ne. apply Hne. by left.
    + intros j' Hj'. apply Hne. by right.
Qed.


(** C10: for a row of a built table, [keyOfIndex] returns the id of the
    row for an index name with the character ['#'], whatever the indices
    of the table are, and null for a name without it that is the
    normalized name of no index of the table. *)
Theorem keyOfIndex_edge_cases tableName calls t row indexName :
  builds tableName calls t →
  Row.class row = Table.rowClass_ t →
  (contains_hash indexName = true →
   keyOfIndex row indexName = Return (Number (Finite (Row.id row))))
  ∧ (contains_hash indexName = false →
     (∀ index, index ∈ Table.getIndices t →
               getNormalizedName index ≠ indexName) →
     keyOfIndex row indexName = Return Null).
Proof.
  intros (this & _ & (fm & Hfill & ->)%getSchema_Return) Hclass.
  unfold keyOfIndex. rewrite Hclass. simpl. split.
  - by intros ->.
  - intros -> Hno.
    rewrite (fill_functionMap_other _ _ _ _ _ Hfill Hno).
    by rewrite lookup_empty.
Qed.


(** ** Rows and persisted records *)

Lemma toDbPayload_loop_fold payload columns obj0 :
  (∀ col, col ∈ columns → returns (toDbField payload col)) →
  toDbPayload_loop payload columns obj0
  = Return
      (fold_left
         (λ obj col,
            <[BaseColumn.getName col :=
                match toDbField payload col with
                | Return v => v
                | Throw _ => Undefined
                end]> obj)
         columns obj0).
Proof.
  revert obj0. induction columns as [|col columns IH]; intros obj0 Hret;
    simpl; [done|].
  destruct (Hret col) as [v Hv]; [by left|]. rewrite Hv.
  apply IH. intros col' Hcol'. apply Hret. by right.
Qed.



(** ** The builder after a chain, in full *)

Lemma Map_set_fresh {V} (m : Map.t V) k v :
  Map.containsKey m k = false → Map.set m k v = (m ++ [(k, v)])%list.
Proof.
  unfold Map.containsKey. induction m as [|[k' w] m IH]; simpl; [done|].
  destruct (String.eqb k' k); [done|]. intros H. by rewrite IH.
Qed.

Lemma SSet_add_fresh (s : SSet.t) x :
  SSet.contains s x = false → SSet.add s x = (s ++ [x])%list.
Proof. unfold SSet.add. by intros ->. Qed.

Lemma declarations_snoc pk calls c :
  declarations pk (calls ++ [c])%list
  = (declarations pk calls
       ++ match declaration pk c with Some d => [d] | None => [] end)%list.
Proof.
  unfold declarations. rewrite omap_app. simpl.
  by destruct (declaration pk c).
Qed.

Lemma columnsOf_snoc calls c :
  columnsOf (calls ++ [c])%list
  = (columnsOf calls
       ++ match c with AddColumn name type => [(name, type)] | _ => [] end)%list.
Proof. unfold columnsOf. rewrite omap_app. simpl. by destruct c. Qed.

Lemma persistOf_snoc calls c :
  persistOf (calls ++ [c])%list
  = match c with PersistIndex v => v | _ => persistOf calls end.
Proof. unfold persistOf. by rewrite fold_left_app. Qed.

(** The layout after a call that declares the index [(name, cols, u)]. *)
Lemma layout_declare pk calls this c name cols u this' :
  layout pk calls this →
  declaration pk c = Some (name, cols, u) →
  (∀ n ty, c ≠ AddColumn n ty) → (∀ v, c ≠ PersistIndex v) →
  Map.containsKey (columns_ this) name = false →
  Map.containsKey (indices_ this) name = false →
  SSet.contains (uniqueIndices_ this) name = false →
  columns_ this' = columns_ this →
  persistIndex_ this' = persistIndex_ this →
  indices_ this' = Map.set (indices_ this) name cols →
  uniqueIndices_ this' =
    (if u then SSet.add (uniqueIndices_ this) name
     else uniqueIndices_ this) →
  layout pk (calls ++ [c])%list this'.
Proof.
  intros [] Hd Hnc Hnp Hfc Hfi Hfu Hc Hp Hi Hu. constructor.
  - rewrite Hc, columnsOf_snoc, lay_columns0.
    destruct c; try (by rewrite app_nil_r); by destruct (Hnc name0 type).
  - rewrite Hi, declarations_snoc, Hd, map_app, Map_set_fresh by done.
    by rewrite lay_indices0.
  - rewrite Hu, declarations_snoc, Hd, List.filter_app, map_app. simpl.
    destruct u; simpl.
    + rewrite SSet_add_fresh by done. by rewrite lay_unique0.
    + by rewrite app_nil_r.
  - rewrite Hp, persistOf_snoc, lay_persist0.
    destruct c; try done; by destruct (Hnp v).
  - intros k. rewrite Hc. auto.
  - intros k. rewrite Hc, Hi, Map_containsKey_set.
    intros Hk [?| ->]; [eauto|congruence].
  - rewrite Hi. by apply Map_NoDup_set.
Qed.

Lemma layout_step pk calls this c :
  pkName_ this = pk →
  layout pk calls this →
  fails c this = None →
  layout pk (calls ++ [c])%list (next c this).
Proof.
  intros <- Hlay Hf. pose proof Hlay as [].
  destruct c; simpl in Hf.
  - (* addColumn *)
    apply nameError_None in Hf as (Hrule & Hfc & Hfi & _).
    constructor; simpl.
    + rewrite columnsOf_snoc, Map_set_fresh by done. by rewrite lay_columns0.
    + by rewrite declarations_snoc, app_nil_r.
    + by rewrite declarations_snoc, app_nil_r.
    + by rewrite persistOf_snoc.
    + intros k [?| ->]%Map_containsKey_set; auto.
    + intros k [?| ->]%Map_containsKey_set Hk; [eauto|congruence].
    + done.
  - (* addPrimaryKey *)
    apply orError_None in Hf as [Hname _].
    apply nameError_None in Hname as (_ & Hfc & Hfi & Hfu).
    eapply (layout_declare _ _ _ _ _ _ true); try done.
  - (* addForeignKey *)
    constructor; simpl; try done.
    + by rewrite columnsOf_snoc, app_nil_r.
    + by rewrite declarations_snoc, app_nil_r.
    + by rewrite declarations_snoc, app_nil_r.
    + by rewrite persistOf_snoc.
  - (* addUnique *)
    apply orError_None in Hf as [Hname _].
    apply nameError_None in Hname as (_ & Hfc & Hfi & Hfu).
    eapply (layout_declare _ _ _ _ _ _ true); try done.
  - (* addNullable *)
    constructor; simpl; try done.
    + by rewrite columnsOf_snoc, app_nil_r.
    + by rewrite declarations_snoc, app_nil_r.
    + by rewrite declarations_snoc, app_nil_r.
    + by rewrite persistOf_snoc.
  - (* addIndex *)
    apply orError_None in Hf as [Hname _].
    apply nameError_None in Hname as (_ & Hfc & Hfi & Hfu).
    eapply (layout_declare _ _ _ _ _ _ (truthy opt_unique)); try done;
      simpl; by destruct (truthy opt_unique).
  - (* persistIndex *)
    constructor; simpl; try done.
    + by rewrite columnsOf_snoc, app_nil_r.
    + by rewrite declarations_snoc, app_nil_r.
    + by rewrite declarations_snoc, app_nil_r.
    + by rewrite persistOf_snoc.
Qed.

Lemma chain_layout tableName calls this :
  chain tableName calls = Return this →
  layout (pkName_ this) calls this.
Proof.
  unfold chain.
  destruct (new_TableBuilder tableName) as [this0|] eqn:Hnew; [|done].
  apply new_TableBuilder_Return in Hnew as (pascal & Hp & Hrule & ->).
  destruct (forEach calls invoke _) as [[[]|e] this'] eqn:Hrun; [|done].
  intros [= <-]. revert this' Hrun.
  induction calls as [|c calls IH] using rev_ind; intros this.
  - simpl. intros [= <-]. constructor; simpl; try done. apply NoDup_nil_2.
  - intros (mid & Hmid & Hf & ->)%forEach_invoke_snoc.
    pose proof (IH _ Hmid) as Hlay.
    assert (pkName_ (next c mid) = pkName_ mid) as Hpk.
    { destruct c; simpl; try done. by destruct (truthy opt_unique). }
    rewrite Hpk. by apply layout_step.
Qed.

Lemma declaration_declares pk c name cols u :
  declaration pk c = Some (name, cols, u) ↔ declares pk c name cols u.
Proof. destruct c; simpl; naive_solver. Qed.

Lemma elem_of_declarations pk calls name cols u :
  (name, cols, u) ∈ declarations pk calls ↔ declared pk calls name cols u.
Proof.
  unfold declarations, declared. rewrite list_elem_of_omap.
  by setoid_rewrite declaration_declares.
Qed.

Lemma toColumnObjects_nil columns opt_order opt_autoInc :
  toColumnObjects columns opt_order opt_autoInc = [] ↔ referenced columns = [].
Proof.
  rewrite <- (toColumnObjects_names columns opt_order opt_autoInc).
  by destruct (toColumnObjects columns opt_order opt_autoInc).
Qed.

Lemma fill_functionMap_Throw this indices fm0 :
  (∃ index, index ∈ indices ∧ Index.columns index = []) →
  fill_functionMap this indices fm0 = Throw TypeError.
Proof.
  revert fm0. induction indices as [|j indices IH]; intros fm0; simpl.
  - by intros (i & ?%elem_of_nil & _).
  - destruct (Index.columns j) as [|col0 rest] eqn:Hj; [done|].
    intros (i & [->|Hi]%elem_of_cons & Hnil); [congruence|]. apply IH. eauto.
Qed.

Lemma fill_functionMap_Return this indices fm0 :
  (∀ index, index ∈ indices → Index.columns index ≠ []) →
  returns (fill_functionMap this indices fm0).
Proof.
  revert fm0. induction indices as [|j indices IH]; intros fm0 Hne; simpl.
  - by eexists.
  - destruct (Index.columns j) as [|col0 rest] eqn:Hj.
    + destruct (Hne j); [by left|done].
    + apply IH. intros i Hi. apply Hne. by right.
Qed.

(** X1: a call of a public method that throws leaves the builder as it
    was, and what it throws is an [lf.Exception] of type SYNTAX: every
    check comes before the first update. *)
Theorem throwing_call_keeps_builder c this e this' :
  invoke c this = (Throw e, this') →
  this' = this ∧ ∃ message, e = lf_Exception SYNTAX message.
Proof.
  rewrite invoke_eq. destruct (fails c this) as [e'|] eqn:Hf; [|done].
  intros [= <- <-]. split; [done|]. by eapply fails_SYNTAX.
Qed.

(** X2: [getSchema] on the builder a chain ends with throws a TypeError
    exactly when some call declared a primary key, a unique constraint or
    an index over an empty list of columns (the builder accepts such a
    call), and returns a table exactly when no call did. *)
Theorem getSchema_returns_iff tableName calls this :
  chain tableName calls = Return this →
  (getSchema this = Throw TypeError ↔ ∃ c, c ∈ calls ∧ emptyIndex c)
  ∧ (returns (getSchema this) ↔ ∀ c, c ∈ calls → ¬ emptyIndex c).
Proof.
  intros (pascal & Hp & _ & Hinv)%chain_invariant. destruct Hinv.
  assert ((∃ index, index ∈ tableIndices this ∧ Index.columns index = [])
          ↔ ∃ c, c ∈ calls ∧ emptyIndex c) as Hempty.
  { split.
    - intros (index & (_ & Hget & _)%elem_of_tableIndices & Hnil).
      apply inv_indices0 in Hget as (u & c & Hc & Hd). exists c.
      split; [done|]. rewrite Hnil in Hd.
      destruct c; simpl in *; try done.
      + destruct Hd as (_ & Hd & _). symmetry in Hd.
        by apply toColumnObjects_nil in Hd.
      + destruct Hd as (_ & Hd & _). by destruct columns.
      + destruct Hd as (_ & Hd & _). symmetry in Hd.
        by apply toColumnObjects_nil in Hd.
    - intros (c & Hc & Hnil).
      assert (∃ name u, declared ("pk" ++ pascal) calls name [] u)
        as (name & u & Hd).
      { destruct c; simpl in Hnil; try done.
        - exists ("pk" ++ pascal), true, (AddPrimaryKey columns opt_autoInc).
          split; [done|]. simpl. split_and!; try done.
          symmetry. by apply toColumnObjects_nil.
        - exists name, true, (AddUnique name columns).
          split; [done|]. simpl. by rewrite Hnil.
        - exists name, (truthy opt_unique),
            (AddIndex name columns opt_order opt_unique).
          split; [done|]. simpl. split_and!; try done.
          symmetry. by apply toColumnObjects_nil. }
      exists (Index.mk (name_ this) name
                (SSet.contains (uniqueIndices_ this) name) []).
      split; [|done]. apply elem_of_tableIndices. simpl.
      split_and!; try done. apply inv_indices0. eauto. }
  unfold getSchema, generateTableClass_, generateRowClass_.
  destruct (decide (Exists (λ index, Index.columns index = [])
                      (tableIndices this))) as [Hex|Hall].
  - apply Exists_exists in Hex.
    rewrite (fill_functionMap_Throw _ _ _ Hex). split.
    + split; [intros _; by apply Hempty|done].
    + split; [by intros [? ?]|].
      intros Hno. apply Hempty in Hex as (c & Hc & Hnil).
      by destruct (Hno c Hc).
  - assert (∀ index, index ∈ tableIndices this → Index.columns index ≠ [])
      as Hne.
    { intros index Hin Hnil. apply Hall, Exists_exists.
      by exists index. }
    destruct (fill_functionMap_Return this _ ∅ Hne) as [fm ->]. split.
    + split; [done|]. intros (index & Hin & Hnil)%Hempty.
      by destruct (Hne index Hin).
    + split; [|intros _; by eexists].
      intros _ c Hc Hnil. destruct Hempty as [_ Hempty].
      destruct Hempty as (index & Hin & Hnil'); [eauto|].
      by destruct (Hne index Hin).
Qed.

(** X3: the indices of a built table are the indices the chain declares,
    in the order of the calls, each with its columns and with the
    uniqueness it was declared with. *)
Theorem table_indices_in_order tableName calls t :
  builds tableName calls t →
  ∃ pascal,
    toPascal_ tableName = Return pascal
    ∧ Table.getIndices t
      = map (λ d, Index.mk tableName d.1.1 d.2 d.1.2)
          (declarations ("pk" ++ pascal) calls).
Proof.
  intros (this & Hchain & (fm & _ & ->)%getSchema_Return).
  pose proof (chain_layout _ _ _ Hchain) as Hlay.
  apply chain_invariant in Hchain as (pascal & Hp & _ & Hinv).
  exists pascal. split; [done|]. simpl. destruct Hinv, Hlay.
  rewrite inv_pkName0 in *.
  unfold tableIndices, Map.getKeys. rewrite lay_indices0, !map_map.
  apply map_ext_in. intros [[name cols] u] Hd%list_elem_of_In. simpl.
  apply elem_of_declarations in Hd.
  rewrite (inv_unique_flag0 _ _ _ Hd), inv_name0.
  assert (Map.get (indices_ this) name = Some cols) as Hget
    by (apply inv_indices0; eauto).
  rewrite lay_indices0 in Hget. by rewrite Hget.
Qed.

(** X4: the columns of a built table are the columns the chain added, in
    the order of the calls of [addColumn], each with its type. *)
Theorem table_columns_in_order tableName calls t :
  builds tableName calls t →
  map (λ col, (BaseColumn.getName col, BaseColumn.getType col))
    (Table.cols_ t)
  = columnsOf calls.
Proof.
  intros (this & Hchain & (fm & _ & ->)%getSchema_Return).
  pose proof (chain_layout _ _ _ Hchain) as Hlay.
  apply chain_invariant in Hchain as (pascal & Hp & _ & Hinv).
  simpl. destruct Hinv, Hlay.
  unfold tableColumns, Map.getKeys. rewrite !map_map.
  transitivity (map id (columns_ this));
    [|by rewrite map_id, lay_columns0].
  apply map_ext_in. intros [name ty] Hin%list_elem_of_In. simpl.
  assert (Map.get (columns_ this) name = Some ty) as ->; [|done].
  apply inv_columns0. rewrite lay_columns0 in Hin.
  unfold columnsOf in Hin.
  apply list_elem_of_omap in Hin as (c & Hc & Hsome).
  destruct c; try done. by injection Hsome as -> ->.
Qed.

(** X5: a column of a built table is marked unique exactly when a call of
    [addPrimaryKey] names it; [addUnique] and [addIndex] mark no column. *)
Theorem column_unique_flag tableName calls t col :
  builds tableName calls t →
  col ∈ Table.cols_ t →
  BaseColumn.isUnique col = true ↔
  ∃ columns opt_autoInc,
    AddPrimaryKey columns opt_autoInc ∈ calls
    ∧ BaseColumn.getName col ∈ referenced columns.
Proof.
  intros (this & (pascal & Hp & _ & Hinv)%chain_invariant
               & (fm & _ & ->)%getSchema_Return).
  simpl. intros [_ ->]%elem_of_tableColumns. destruct Hinv.
  by rewrite SSet_contains_elem, inv_uniqueColumns0.
Qed.

Lemma persistOf_none calls :
  (∀ v, PersistIndex v ∉ calls) → persistOf calls = false.
Proof.
  induction calls as [|c calls IH] using rev_ind; [done|].
  intros Hno. rewrite persistOf_snoc. destruct c.
  7: { destruct (Hno v). apply elem_of_snoc. by right. }
  all: apply IH; intros v' Hin; apply (Hno v'), elem_of_snoc; by left.
Qed.

(** X6: the index-persistence flag of a built table is the value of the
    last call of [persistIndex] in the chain, and [false] when the chain
    has none. *)
Theorem persistentIndex_last tableName calls t :
  builds tableName calls t →
  Table.persistentIndex t = persistOf calls
  ∧ (∀ calls' v, calls = (calls' ++ [PersistIndex v])%list →
                 Table.persistentIndex t = v)
  ∧ ((∀ v, PersistIndex v ∉ calls) → Table.persistentIndex t = false).
Proof.
  intros (this & Hlay%chain_layout & (fm & _ & ->)%getSchema_Return).
  simpl. destruct Hlay. rewrite lay_persist0. split_and!.
  - done.
  - intros calls' v ->. by rewrite persistOf_snoc.
  - apply persistOf_none.
Qed.

Lemma name_start_toUpperCase c :
  name_start c = true → name_char (toUpperCase c) = true.
Proof. destruct c as [[] [] [] [] [] [] [] []]; vm_compute; auto. Qed.

Lemma naming_rule_pk c rest :
  naming_rule (String c rest) = true →
  naming_rule ("pk" ++ String (toUpperCase c) rest) = true.
Proof.
  simpl. intros [Hc Hrest]%andb_true_iff.
  change (name_char (toUpperCase c) && all_chars name_char rest = true).
  by rewrite name_start_toUpperCase, Hrest.
Qed.

(** X7: the builder a chain ends with has the primary-key name ['pk'] and
    the table name with its first character in upper case; this name
    obeys the naming rule, so [addPrimaryKey] throws a SYNTAX exception
    exactly when the name is already defined on the builder or a
    referenced column is missing or not indexable. *)
Theorem primaryKey_name_wellformed tableName calls this :
  chain tableName calls = Return this →
  ∃ c rest,
    tableName = String c rest
    ∧ pkName_ this = "pk" ++ String (toUpperCase c) rest
    ∧ naming_rule (pkName_ this) = true
    ∧ ∀ columns opt_autoInc,
        is_SYNTAX (addPrimaryKey columns opt_autoInc this).1 ↔
        defined this (pkName_ this)
        ∨ ∃ col, col ∈ referenced columns
                 ∧ (missing this col ∨ nonIndexable this col).
Proof.
  intros (pascal & Hp & Hrule & Hinv)%chain_invariant. destruct Hinv.
  destruct tableName as [|c rest]; [done|]. injection Hp as <-.
  exists c, rest. split; [done|]. split; [done|].
  assert (naming_rule (pkName_ this) = true) as Hpk
    by (rewrite inv_pkName0; by apply naming_rule_pk).
  split; [done|]. intros columns a.
  rewrite addPrimaryKey_SYNTAX, Hpk. naive_solver.
Qed.

(** X8: on the builder a chain ends with, a name the chain has used for a
    column or for an index cannot be used again: [addColumn], [addUnique]
    and [addIndex] with it throw a SYNTAX exception, and after a call of
    [addPrimaryKey] every further call of it throws one. *)
Theorem redeclaration_throws tableName calls this :
  chain tableName calls = Return this →
  (∀ columns opt_autoInc,
     AddPrimaryKey columns opt_autoInc ∈ calls →
     ∀ columns' opt_autoInc',
       is_SYNTAX (addPrimaryKey columns' opt_autoInc' this).1)
  ∧ (∀ name,
       (∃ type, AddColumn name type ∈ calls)
       ∨ (∃ cols u, declared (pkName_ this) calls name cols u) →
       (∀ type, is_SYNTAX (addColumn name type this).1)
       ∧ (∀ columns, is_SYNTAX (addUnique name columns this).1)
       ∧ (∀ columns opt_order opt_unique,
            is_SYNTAX (addIndex name columns opt_order opt_unique this).1)).
Proof.
  intros (pascal & Hp & Hrule & Hinv)%chain_invariant. destruct Hinv.
  rewrite inv_pkName0. split.
  - intros columns a Hin columns' a'. apply addPrimaryKey_SYNTAX.
    left. right. right. left. rewrite inv_pkName0.
    apply Map_containsKey_get. eexists. apply inv_indices0.
    exists true, (AddPrimaryKey columns a). split; [done|]. done.
  - intros name Hused.
    assert (defined this name) as Hdef.
    { destruct Hused as [(ty & Hin)|(cols & u & Hd)].
      - left. apply Map_containsKey_get. exists ty. by apply inv_columns0.
      - right. left. apply Map_containsKey_get. exists cols.
        apply inv_indices0. eauto. }
    split_and!.
    + intros ty. apply addColumn_SYNTAX. by right.
    + intros columns. apply addUnique_SYNTAX. left. by right.
    + intros columns o u. apply addIndex_SYNTAX. left. by right.
Qed.

(** X9: in a built table the table name, the column names and the index
    names obey the naming rule, and no name is used twice, among the
    columns, among the indices, or for a column and an index. *)
Theorem schema_names tableName calls t :
  builds tableName calls t →
  naming_rule (Table.getName t) = true
  ∧ (∀ col, col ∈ Table.cols_ t →
            naming_rule (BaseColumn.getName col) = true)
  ∧ (∀ index, index ∈ Table.getIndices t →
              naming_rule (Index.name index) = true)
  ∧ NoDup (map BaseColumn.getName (Table.cols_ t)
             ++ map Index.name (Table.getIndices t))%list.
Proof.
  intros (this & Hchain & (fm & _ & ->)%getSchema_Return).
  pose proof (chain_layout _ _ _ Hchain) as Hlay.
  apply chain_invariant in Hchain as (pascal & Hp & Hrule & Hinv).
  simpl. destruct Hlay.
  assert (map Index.name (tableIndices this) = Map.getKeys (indices_ this))
    as Hnames.
  { unfold tableIndices. rewrite map_map. simpl. apply map_id. }
  split_and!.
  - by rewrite (inv_name _ _ _ _ Hinv).
  - intros col [Hget _]%elem_of_tableColumns.
    apply lay_column_names0, Map_containsKey_get. eauto.
  - intros index (_ & Hget & _)%elem_of_tableIndices.
    apply (inv_index_names _ _ _ _ Hinv), Map_containsKey_get. eauto.
  - rewrite Hnames, tableColumns_names. apply NoDup_app. split_and!.
    + apply (inv_columns_NoDup _ _ _ _ Hinv).
    + intros k Hk Hk'. apply (lay_disjoint0 k).
      * by apply Map_containsKey_get, Map_getKeys_get.
      * by apply Map_containsKey_get, Map_getKeys_get.
    + done.
Qed.

(** ** Storing and loading rows: errors and fields *)

Lemma toDbField_Throw payload col e :
  toDbField payload col = Throw e ↔
  e = TypeError
  ∧ BaseColumn.getType col = DATE_TIME
  ∧ prop payload (BaseColumn.getName col) ≠ Null
  ∧ ∀ tv, prop payload (BaseColumn.getName col) ≠ DateObj tv.
Proof.
  unfold toDbField.
  destruct (BaseColumn.getType col); simpl; try (split; [done|naive_solver]).
  destruct (prop payload (BaseColumn.getName col)); simpl;
    try (split; [intros [= <-]; done|by intros (-> & _)]);
    split; try done; naive_solver.
Qed.

Lemma toDbPayload_loop_Throw payload columns obj e :
  toDbPayload_loop payload columns obj = Throw e ↔
  ∃ col, col ∈ columns ∧ toDbField payload col = Throw e.
Proof.
  revert obj. induction columns as [|col columns IH]; intros obj; simpl.
  - split; [done|]. by intros (c & ?%elem_of_nil & _).
  - destruct (toDbField payload col) as [v|e'] eqn:Hf.
    + rewrite IH. split.
      * intros (c & Hc & He). exists c. split; [by right|done].
      * intros (c & [->|Hc]%elem_of_cons & He); [congruence|eauto].
    + split.
      * intros [= <-]. exists col. split; [by left|done].
      * intros (c & [->|Hc]%elem_of_cons & He); [congruence|].
        apply toDbField_Throw in Hf as (-> & _).
        apply toDbField_Throw in He as (-> & _). done.
Qed.







(** ** Index keys of fields without a value, columns of indices *)



(** X14: the columns of the indices of a built table.  Column objects
    passed to [addIndex] are kept as they are, whatever order is passed
    with them.  Column names become ascending columns, except for
    [addIndex] with an order that is not 0, and only [addPrimaryKey]
    passes its auto-increment flag on, to every column. *)
Theorem index_columns_normalized tableName calls t :
  builds tableName calls t →
  ∃ pascal,
    toPascal_ tableName = Return pascal
    ∧ (∀ name cols opt_order opt_unique,
         AddIndex name (Columns cols) opt_order opt_unique ∈ calls →
         Index.mk tableName name (truthy opt_unique) cols
           ∈ Table.getIndices t)
    ∧ (∀ name names opt_order opt_unique,
         AddIndex name (Names names) opt_order opt_unique ∈ calls →
         Index.mk tableName name (truthy opt_unique)
           (map (λ col,
                   IndexedColumn.mk col
                     (match opt_order with
                      | Some o => if o =? 0 then ASC else o
                      | None => ASC
                      end) false) names)
           ∈ Table.getIndices t)
    ∧ (∀ name names,
         AddUnique name names ∈ calls →
         Index.mk tableName name true
           (map (λ col, IndexedColumn.mk col ASC false) names)
           ∈ Table.getIndices t)
    ∧ (∀ names opt_autoInc,
         AddPrimaryKey (Names names) opt_autoInc ∈ calls →
         Index.mk tableName ("pk" ++ pascal) true
           (map (λ col, IndexedColumn.mk col ASC (truthy opt_autoInc)) names)
           ∈ Table.getIndices t).
Proof.
  intros (this & (pascal & Hp & _ & Hinv)%chain_invariant
               & (fm & _ & ->)%getSchema_Return).
  exists pascal. split; [done|]. simpl. destruct Hinv.
  assert (∀ c name cols u,
            c ∈ calls → declares ("pk" ++ pascal) c name cols u →
            Index.mk tableName name u cols ∈ tableIndices this) as Hdecl.
  { intros c name cols u Hc Hd. apply elem_of_tableIndices. simpl.
    assert (declared ("pk" ++ pascal) calls name cols u) as Hdd
      by (by exists c).
    split_and!; [done| |].
    - apply inv_indices0. eauto.
    - symmetry. by eapply inv_unique_flag0. }
  split_and!.
  - intros name cols o u Hc. by apply (Hdecl _ _ _ _ Hc).
  - intros name names o u Hc. by apply (Hdecl _ _ _ _ Hc).
  - intros name names Hc. by apply (Hdecl _ _ _ _ Hc).
  - intros names a Hc. by apply (Hdecl _ _ _ _ Hc).
Qed.

Lemma addAll_present names (s : SSet.t) :
  (∀ x, x ∈ names → x ∈ s) → addAll names s = s.
Proof.
  unfold addAll. induction names as [|x names IH]; intros Hin; simpl;
    [done|].
  assert (SSet.add s x = s) as ->.
  { unfold SSet.add.
    by rewrite (proj2 (SSet_contains_elem s x) (Hin x ltac:(by left))). }
  apply IH. intros y Hy. apply Hin. by right.
Qed.

Lemma columnsError_ext this this' chk cols :
  columns_ this' = columns_ this → name_ this' = name_ this →
  columnsError this' chk cols = columnsError this chk cols.
Proof.
  intros Hc Hn. induction cols as [|col cols IH]; simpl; [done|].
  unfold columnError. by rewrite Hc, Hn, IH.
Qed.

(** X15: [addNullable] is idempotent: a second call with the same
    columns throws if and only if the first does, and if not it leaves
    the builder as the first call left it. *)
Theorem addNullable_idempotent columns this :
  (addNullable columns >> addNullable columns) this
  = addNullable columns this.
Proof.
  change (addNullable columns) with (invoke (AddNullable columns)).
  unfold bind. rewrite (invoke_eq (AddNullable columns) this).
  destruct (fails (AddNullable columns) this) eqn:Hf; [done|].
  rewrite invoke_eq.
  assert (fails (AddNullable columns) (next (AddNullable columns) this)
          = fails (AddNullable columns) this) as ->
    by (by apply columnsError_ext).
  rewrite Hf. f_equal. simpl. destruct this; unfold set_nullable_; simpl.
  f_equal. apply addAll_present. intros x Hx. apply SSet_elem_addAll.
  by right.
Qed.

(** ** Which error comes first, what is stored *)

Lemma columnsError_first this chk good c bad :
  (∀ g, g ∈ good → columnError this chk g = None) →
  columnsError this chk (good ++ c :: bad)%list = columnError this chk c
  ∨ columnsError this chk (good ++ c :: bad)%list
    = columnsError this chk bad ∧ columnError this chk c = None.
Proof.
  induction good as [|g good IH]; intros Hgood; simpl.
  - destruct (columnError this chk c); [by left|by right].
  - rewrite (Hgood g) by (by left). apply IH. intros g' Hg'.
    apply Hgood. by right.
Qed.

Lemma nameError_defined this name :
  naming_rule name = true → defined this name →
  nameError this name
  = Some (lf_Exception SYNTAX
            (name_ this ++ "." ++ name ++ " is already defined")).
Proof.
  unfold nameError, defined. intros -> Hdef. simpl.
  destruct (Map.containsKey (columns_ this) name),
    (Map.containsKey (indices_ this) name),
    (SSet.contains (uniqueIndices_ this) name); simpl; naive_solver.
Qed.

(** X16: the exception of [addIndex], in the order of its checks: a name
    that breaks the naming rule is reported first, then a name that is
    already defined, then the first referenced column, in the order
    given, that is missing or not indexable. *)
Theorem addIndex_first_error this name columns opt_order opt_unique :
  (naming_rule name = false →
   (addIndex name columns opt_order opt_unique this).1
   = Throw (lf_Exception SYNTAX (name ++ " violates naming rule")))
  ∧ (naming_rule name = true → defined this name →
     (addIndex name columns opt_order opt_unique this).1
     = Throw (lf_Exception SYNTAX
                (name_ this ++ "." ++ name ++ " is already defined")))
  ∧ (naming_rule name = true → ¬ defined this name →
     ∀ good c bad,
       referenced columns = (good ++ c :: bad)%list →
       (∀ g, g ∈ good → ¬ missing this g ∧ ¬ nonIndexable this g) →
       (missing this c →
        (addIndex name columns opt_order opt_unique this).1
        = Throw (lf_Exception SYNTAX
                   (name_ this ++ " does not have column: " ++ c)))
       ∧ (nonIndexable this c →
          (addIndex name columns opt_order opt_unique this).1
          = Throw (lf_Exception SYNTAX
                     (name_ this ++ " index on non-indexable column: "
                        ++ c)))).
Proof.
  change (addIndex name columns opt_order opt_unique)
    with (invoke (AddIndex name columns opt_order opt_unique)).
  rewrite invoke_eq. simpl fails. split_and!.
  - intros Hrule. unfold nameError. by rewrite Hrule.
  - intros Hrule Hdef. by rewrite nameError_defined.
  - intros Hrule Hfree good c bad Hsplit Hgood.
    assert (nameError this name = None) as ->.
    { destruct (nameError this name) eqn:E; [|done].
      destruct Hfree.
      assert (nameError this name ≠ None) as Hne by (by rewrite E).
      apply nameError_Some in Hne as [?|?]; [congruence|done]. }
    simpl.
    rewrite <- (toColumnObjects_names columns opt_order None) in Hsplit.
    apply map_eq_app in Hsplit as (good' & rest' & Heq & Hg & Hrest).
    apply map_eq_cons in Hrest as (c' & bad' & -> & Hc & Hbad).
    rewrite Heq.
    assert (∀ g, g ∈ good' → columnError this true g = None) as Hgood'.
    { intros g Hg'. destruct (columnError this true g) eqn:E; [|done].
      assert (columnError this true g ≠ None) as Hne by (by rewrite E).
      apply columnError_Some in Hne.
      destruct (Hgood (IndexedColumn.name g)) as [Hm Hi].
      { rewrite <- Hg. apply list_elem_of_fmap. eauto. }
      naive_solver. }
    assert (columnError this true c' ≠ None →
            columnsError this true (good' ++ c' :: bad')%list
            = columnError this true c') as Hfirst.
    { intros Hne. destruct (columnsError_first this true good' c' bad' Hgood')
        as [?|[_ ?]]; done. }
    subst c. unfold missing, nonIndexable, Map.containsKey. split.
    + intros Hm. rewrite Hfirst; unfold columnError;
        destruct (Map.get (columns_ this) (IndexedColumn.name c')); done.
    + intros Hi. rewrite Hfirst; unfold columnError;
        destruct Hi as [-> | ->]; done.
Qed.

(** X17: for a built table and a row of it with a well-typed payload,
    what [toDbPayload] returns is well stored: null or what [binToHex]
    makes of the buffer in an [ARRAY_BUFFER] column, null or the time
    value of the Date, which is in the range of [TimeClip], in a
    [DATE_TIME] column. *)
Theorem toDbPayload_wellStored tableName calls t row dbPayload :
  builds tableName calls t →
  Row.class row = Table.rowClass_ t →
  wellTyped (Table.cols_ t) (Row.payload row) →
  toDbPayload row = Return dbPayload →
  wellStored (Table.cols_ t) dbPayload.
Proof.
  intros (this & (pascal & Hp & _ & Hinv)%chain_invariant
               & (fm & Hfill & ->)%getSchema_Return).
  simpl. intros Hclass Htyped Hdb col Hcol.
  pose proof (tableColumns_NoDup _ _ _ _ Hinv) as Hnd.
  unfold toDbPayload in Hdb. rewrite Hclass in Hdb. simpl in Hdb.
  assert (∀ c, c ∈ tableColumns this →
            returns (toDbField (Row.payload row) c)) as Hret.
  { intros c Hc. destruct (toDbField (Row.payload row) c) as [v|e] eqn:E;
      [by eexists|].
    assert (toDbPayload_loop (Row.payload row) (tableColumns this) ∅
            = Throw e) as Hthrow
      by (apply toDbPayload_loop_Throw; eauto).
    congruence. }
  rewrite (toDbPayload_loop_fold _ _ _ Hret) in Hdb. injection Hdb as <-.
  destruct (fold_insert_lookup BaseColumn.getName
              (λ col, match toDbField (Row.payload row) col with
                      | Return v => v
                      | Throw _ => Undefined
                      end)
              (tableColumns this) ∅ Hnd) as [Hsaved _].
  cbv zeta.
  match goal with
  | |- context [prop ?db (BaseColumn.getName col)] =>
      assert (prop db (BaseColumn.getName col)
              = match toDbField (Row.payload row) col with
                | Return v => v
                | Throw _ => Undefined
                end) as ->
        by (unfold prop; by rewrite (Hsaved col Hcol))
  end.
  destruct (Htyped col Hcol) as [Hbin Hdate].
  unfold toDbField.
  split; intros Hty; rewrite Hty; simpl.
  - destruct (Hbin Hty) as [Hv|[bytes Hv]]; rewrite Hv; simpl;
      [by left|right; eauto].
  - destruct (Hdate Hty) as [Hv|(tv & Hv & Hclip)]; rewrite Hv; simpl;
      [by left|right; eauto].
Qed.

End Builder.

(** ** The builder at work on a sample table *)




(** With the normalized name [tableName.indexName], the normalized names
    of the indices of a built table have no ['#'] and tell the indices
    apart: index names obey the naming rule and are the keys of a map. *)

Lemma name_char_not_hash c :
  name_char c = true → Ascii.eqb c "#"%char = false.
Proof.
  intros Hc. destruct (Ascii.eqb_spec c "#"%char) as [->|]; [|done].
  by vm_compute in Hc.
Qed.

Lemma naming_rule_no_hash name :
  naming_rule name = true → contains_hash name = false.
Proof.
  destruct name as [|c rest]; [done|]. simpl.
  intros [Hc Hrest]%andb_true_iff.
  rewrite name_char_not_hash
    by (unfold name_char; by rewrite Hc).
  simpl. induction rest as [|c' rest IH]; [done|]. simpl in *.
  apply andb_true_iff in Hrest as [Hc' Hrest].
  by rewrite name_char_not_hash, IH.
Qed.

Lemma contains_hash_app a b :
  contains_hash (a ++ b) = contains_hash a || contains_hash b.
Proof.
  induction a as [|c a IH]; simpl; [done|]. by rewrite IH, orb_assoc.
Qed.

Lemma append_inj_l (a b c : string) : a ++ b = a ++ c → b = c.
Proof. induction a as [|x a IH]; simpl; [done|]. intros [= H]. auto. Qed.

Lemma dotted_names_identify ASC tableName calls t index :
  builds ASC sample_getNormalizedName tableName calls t →
  index ∈ Table.getIndices t →
  contains_hash (sample_getNormalizedName index) = false
  ∧ ∀ other,
      other ∈ Table.getIndices t →
      sample_getNormalizedName other = sample_getNormalizedName index →
      other = index.
Proof.
  intros (this & (pascal & Hp & Hrule & Hinv)%chain_invariant
               & (fm & _ & ->)%getSchema_Return).
  simpl. intros (Hn & Hget & Hu)%elem_of_tableIndices.
  destruct Hinv. unfold sample_getNormalizedName. split.
  - rewrite !contains_hash_app, Hn, inv_name0.
    rewrite (naming_rule_no_hash _ Hrule). simpl.
    apply naming_rule_no_hash, inv_index_names0, Map_containsKey_get. eauto.
  - intros other (Hn' & Hget' & Hu')%elem_of_tableIndices Heq.
    rewrite Hn, Hn' in Heq. apply append_inj_l in Heq.
    injection Heq as Heq. change (Index.name other = Index.name index) in Heq.
    destruct index, other; simpl in *. subst. f_equal; congruence.
Qed.

Ltac solve_builds :=
  eexists; split; [vm_compute; reflexivity | reflexivity].

Ltac solve_elem := repeat first [left | right].

Ltac each_elem H :=
  repeat (apply elem_of_cons in H as [?|H]);
  [..|by apply elem_of_nil in H]; try simplify_eq.

Example logoBuilder_chain :
  chain sample_ASC "job" [AddColumn "id" INTEGER; AddColumn "logo" ARRAY_BUFFER]
  = Return logoBuilder.
Proof. reflexivity. Qed.

(** The order 0 is falsy: [addIndex] with it stores the ascending order. *)
Example addIndex_order_0 :
  (addIndex sample_ASC "idx" (Names ["id"]) (Some 0) None logoBuilder).2
  = set_indices_
      (λ m, Map.set m "idx" [IndexedColumn.mk "id" sample_ASC false])
      logoBuilder.
Proof. reflexivity. Qed.

(** The constructor reads the first character of the name before it
    checks the name: the empty name ends in a TypeError, not in a SYNTAX
    exception. *)
Example new_TableBuilder_empty_name :
  new_TableBuilder "" = Throw TypeError ∧ naming_rule "" = false.
Proof. split; reflexivity. Qed.

(** An index without columns is accepted by the builder and makes
    [getSchema] throw a TypeError. *)
Example getSchema_index_without_columns :
  match chain sample_ASC "job"
          [AddColumn "id" INTEGER; AddIndex "idx" (Names []) None None] with
  | Return this => getSchema sample_getNormalizedName this = Throw TypeError
  | Throw _ => False
  end.
Proof. reflexivity. Qed.

Example foreignKeys_empty_job :
  ∃ t, builds sample_ASC sample_getNormalizedName "job" jobCalls t
       ∧ Constraint.getForeignKeys (Table.getConstraint t) = [].
Proof.
  eexists. split; [solve_builds|].
  eapply (foreignKeys_empty sample_ASC sample_getNormalizedName "job"
            jobCalls).
  solve_builds.
Defined.

(** C3 fails on the code: the chain calls [addForeignKey] for
    ["fkEmployer"], the method is not implemented, and the table the chain
    builds exposes no foreign key of that name. *)
Theorem foreignKey_not_exposed :
  match chain sample_ASC "job" jobCalls with
  | Return this =>
      match getSchema sample_getNormalizedName this with
      | Return t =>
          AddForeignKey "fkEmployer" "id" "Employer" "id" None ∈ jobCalls
          ∧ ¬ exposesForeignKey t "fkEmployer"
      | Throw _ => False
      end
  | Throw _ => False
  end.
Proof.
  vm_compute. split; [solve_elem|].
  by intros (fk & ?%elem_of_nil & _).
Qed.






Lemma name_validation_witness :
  "1job" ≠ "" ∧ is_SYNTAX (new_TableBuilder "1job")
  ∧ is_SYNTAX (addColumn "logo" STRING logoBuilder).1.
Proof.
  destruct (name_validation sample_ASC logoBuilder)
    as (Hcolumn & _ & _ & _ & Hnew).
  split_and!; [done| |].
  - apply Hnew; [done|reflexivity].
  - apply Hcolumn. right. left. reflexivity.
Defined.

(** C8 as stated fails: ["uqTitle"] obeys the naming rule and is not
    defined on the builder, and [addUnique] throws a SYNTAX exception all
    the same, for the missing column. *)
Lemma addUnique_SYNTAX_for_a_free_name :
  ¬ (is_SYNTAX (addUnique sample_ASC "uqTitle" ["title"] logoBuilder).1 ↔
     naming_rule "uqTitle" = false ∨ defined logoBuilder "uqTitle").
Proof.
  intros [Hthrows _].
  destruct Hthrows as [Hrule|[Hdef|[Hdef|Hdef]]]; [by eexists|done..].
Qed.

Lemma column_validation_witness :
  (∃ c, c ∈ referenced (Names ["id"; "logo"])
        ∧ (missing logoBuilder c ∨ nonIndexable logoBuilder c))
  ∧ is_SYNTAX
      (addIndex sample_ASC "idxLogo" (Names ["id"; "logo"]) None None
         logoBuilder).1
  ∧ (addNullable sample_ASC ["logo"] logoBuilder).1 = Return tt.
Proof.
  assert (∃ c, c ∈ referenced (Names ["id"; "logo"])
               ∧ (missing logoBuilder c ∨ nonIndexable logoBuilder c))
    as Hbad.
  { exists "logo". split; [simpl; solve_elem|]. right. left. reflexivity. }
  destruct (column_validation sample_ASC logoBuilder)
    as (Hindex & _ & Hnullable).
  split_and!; [done| |].
  - apply (Hindex _ Hbad).
  - apply Hnullable. intros (c & Hc & Hmissing). each_elem Hc.
    discriminate Hmissing.
Defined.

Lemma keyOfIndex_edge_cases_witness :
  ∃ t,
    builds sample_ASC sample_getNormalizedName "job" jobCalls t
    ∧ keyOfIndex (Row.mk (Table.rowClass_ t) 7 jobPayload) "job.pkJob#"
      = Return (Number (Finite 7))
    ∧ keyOfIndex (Row.mk (Table.rowClass_ t) 7 jobPayload) "job.idxNone"
      = Return Null.
Proof.
  eexists. split; [solve_builds|].
  split.
  - eapply (keyOfIndex_edge_cases sample_ASC sample_getNormalizedName "job"
              jobCalls); [solve_builds|reflexivity..].
  - eapply (keyOfIndex_edge_cases sample_ASC sample_getNormalizedName "job"
              jobCalls); [solve_builds|reflexivity..|].
    intros index Hindex. vm_compute in Hindex. each_elem Hindex; done.
Defined.



(** ** Further runs on the sample tables *)

Lemma throwing_call_keeps_builder_witness :
  invoke sample_ASC (AddUnique "uq" ["id"; "nope"]) logoBuilder
  = (Throw (lf_Exception SYNTAX "job does not have column: nope"),
     logoBuilder)
  ∧ logoBuilder = logoBuilder
  ∧ ∃ message,
      lf_Exception SYNTAX "job does not have column: nope"
      = lf_Exception SYNTAX message.
Proof.
  split; [reflexivity|].
  eapply (throwing_call_keeps_builder sample_ASC
            (AddUnique "uq" ["id"; "nope"]) logoBuilder).
  reflexivity.
Defined.

Lemma getSchema_returns_iff_witness :
  ∃ this,
    chain sample_ASC "job" emptyIndexCalls = Return this
    ∧ getSchema sample_getNormalizedName this = Throw TypeError.
Proof.
  eexists. split; [vm_compute; reflexivity|].
  eapply (getSchema_returns_iff sample_ASC sample_getNormalizedName "job"
            emptyIndexCalls); [vm_compute; reflexivity|].
  exists (AddIndex "idxNone" (Names []) None None).
  split; [unfold emptyIndexCalls; solve_elem | reflexivity].
Defined.

Lemma table_indices_in_order_witness :
  ∃ t,
    builds sample_ASC sample_getNormalizedName "job" jobCalls t
    ∧ map Index.name (Table.getIndices t)
      = ["pkJob"; "uqTitle"; "idxPosted"; "idxTitle"].
Proof.
  eexists. split; [solve_builds|].
  destruct (table_indices_in_order sample_ASC sample_getNormalizedName
              "job" jobCalls _ ltac:(solve_builds))
    as (pascal & [= <-] & Hindices).
  rewrite Hindices. reflexivity.
Defined.

Lemma table_columns_in_order_witness :
  ∃ t,
    builds sample_ASC sample_getNormalizedName "job" jobCalls t
    ∧ map (λ col, (BaseColumn.getName col, BaseColumn.getType col))
        (Table.cols_ t)
      = [("id", INTEGER); ("title", STRING); ("posted", DATE_TIME);
         ("logo", ARRAY_BUFFER); ("extra", OBJECT)].
Proof.
  eexists. split; [solve_builds|].
  exact (table_columns_in_order sample_ASC sample_getNormalizedName "job"
           jobCalls _ ltac:(solve_builds)).
Defined.

Lemma column_unique_flag_witness :
  ∃ t,
    builds sample_ASC sample_getNormalizedName "job" jobCalls t
    ∧ BaseColumn.mk "title" false STRING ∈ Table.cols_ t
    ∧ ¬ ∃ columns opt_autoInc,
          AddPrimaryKey columns opt_autoInc ∈ jobCalls
          ∧ "title" ∈ referenced columns.
Proof.
  eexists. split; [solve_builds|].
  assert (BaseColumn.mk "title" false STRING
            ∈ [BaseColumn.mk "id" true INTEGER;
               BaseColumn.mk "title" false STRING;
               BaseColumn.mk "posted" false DATE_TIME;
               BaseColumn.mk "logo" false ARRAY_BUFFER;
               BaseColumn.mk "extra" false OBJECT]) as Hin by solve_elem.
  split; [exact Hin|].
  intros Hpk.
  apply (column_unique_flag sample_ASC sample_getNormalizedName "job"
           jobCalls _ _ ltac:(solve_builds) Hin) in Hpk.
  discriminate Hpk.
Defined.

Lemma persistentIndex_last_witness :
  ∃ t,
    builds sample_ASC sample_getNormalizedName "job" jobCalls t
    ∧ Table.persistentIndex t = true.
Proof.
  eexists. split; [solve_builds|].
  exact (proj1 (persistentIndex_last sample_ASC sample_getNormalizedName
                  "job" jobCalls _ ltac:(solve_builds))).
Defined.

Lemma primaryKey_name_wellformed_witness :
  ∃ this,
    chain sample_ASC "job" jobCalls = Return this
    ∧ pkName_ this = "pkJob"
    ∧ naming_rule (pkName_ this) = true.
Proof.
  eexists. split; [vm_compute; reflexivity|].
  destruct (primaryKey_name_wellformed sample_ASC "job" jobCalls _
              ltac:(vm_compute; reflexivity))
    as (c & rest & [= <- <-] & Hpk & Hrule & _).
  split; [exact Hpk | exact Hrule].
Defined.

Lemma redeclaration_throws_witness :
  ∃ this,
    chain sample_ASC "job" jobCalls = Return this
    ∧ is_SYNTAX (addPrimaryKey sample_ASC (Names ["title"]) None this).1
    ∧ is_SYNTAX (addColumn "uqTitle" STRING this).1.
Proof.
  eexists. split; [vm_compute; reflexivity|].
  destruct (redeclaration_throws sample_ASC "job" jobCalls _
              ltac:(vm_compute; reflexivity)) as [Hpk Hname].
  split.
  - apply (Hpk (Names ["id"]) None). unfold jobCalls. solve_elem.
  - apply (Hname "uqTitle"). right.
    exists [IndexedColumn.mk "title" sample_ASC false], true,
      (AddUnique "uqTitle" ["title"]).
    split; [unfold jobCalls; solve_elem | done].
Defined.

Lemma schema_names_witness :
  ∃ t,
    builds sample_ASC sample_getNormalizedName "job" jobCalls t
    ∧ NoDup (map BaseColumn.getName (Table.cols_ t)
               ++ map Index.name (Table.getIndices t))%list.
Proof.
  eexists. split; [solve_builds|].
  apply (schema_names sample_ASC sample_getNormalizedName "job" jobCalls).
  solve_builds.
Defined.





Lemma index_columns_normalized_witness :
  ∃ t,
    builds sample_ASC sample_getNormalizedName "job" jobCalls t
    ∧ Index.mk "job" "idxPosted" false
        [IndexedColumn.mk "posted" sample_ASC false;
         IndexedColumn.mk "id" sample_ASC false]
        ∈ Table.getIndices t
    ∧ Index.mk "job" "idxTitle" true [IndexedColumn.mk "title" 0 false]
        ∈ Table.getIndices t.
Proof.
  eexists. split; [solve_builds|].
  destruct (index_columns_normalized sample_ASC sample_getNormalizedName
              "job" jobCalls _ ltac:(solve_builds))
    as (pascal & [= <-] & Hobjects & Hnames & _).
  split.
  - apply (Hnames "idxPosted" ["posted"; "id"] (Some 0) None).
    unfold jobCalls. solve_elem.
  - apply (Hobjects "idxTitle" [IndexedColumn.mk "title" 0 false] None
             (Some true)).
    unfold jobCalls. solve_elem.
Defined.

Lemma addIndex_first_error_witness :
  (addIndex sample_ASC "idxLogo" (Names ["id"; "logo"; "nope"]) None None
     logoBuilder).1
  = Throw (lf_Exception SYNTAX "job index on non-indexable column: logo").
Proof.
  destruct (addIndex_first_error sample_ASC logoBuilder "idxLogo"
              (Names ["id"; "logo"; "nope"]) None None)
    as (_ & _ & Hcolumn).
  apply (Hcolumn eq_refl) with (good := ["id"]) (bad := ["nope"]).
  - intros [Hd|[Hd|Hd]]; discriminate Hd.
  - reflexivity.
  - intros g Hg. each_elem Hg. split.
    + intros Hm. discriminate Hm.
    + intros [Hi|Hi]; discriminate Hi.
  - left. reflexivity.
Defined.

Lemma toDbPayload_wellStored_witness :
  ∃ t,
    builds sample_ASC sample_getNormalizedName "job" jobCalls t
    ∧ ∃ dbPayload,
        toDbPayload sample_binToHex (Row.mk (Table.rowClass_ t) 7 jobPayload)
        = Return dbPayload
        ∧ wellStored sample_binToHex (Table.cols_ t) dbPayload.
Proof.
  eexists. split; [solve_builds|].
  eexists. split; [reflexivity|].
  eapply (toDbPayload_wellStored sample_ASC sample_binToHex
            sample_getNormalizedName "job" jobCalls _
            (Row.mk _ 7 jobPayload));
    [solve_builds|reflexivity| |reflexivity].
  intros col Hcol. vm_compute in Hcol.
  each_elem Hcol; (split; intros Hty; [try discriminate Hty..]).
  - right. eexists. split; reflexivity.
  - right. eexists. reflexivity.
Defined.
